(** * FunctionMapper: a fixed-capacity jump vector

    Shallow embedding of [src/FunctionMapper.h] and [src/FunctionMapper.cpp]
    and the properties of its constructor, [addHandler], [validateAddress]
    and [processValue].

    Conventions of the embedding.
    - [unsigned int] and [int] are [uint_bits] wide; the width is a
      parameter of the development (the C++ standard only promises at
      least 16 bits).  Values are integers of [Z]; every place where
      the source can wrap or convert is written out with [to_uint],
      [to_int] or [to_uchar].
    - A function pointer is [option Handler]: [None] is the null
      pointer [0], the only value the source ever compares a handler
      against.  A handler may have effects of its own; they are
      threaded through an abstract [World].
    - The backing array is a list of slots.  An access outside of it
      is undefined behaviour in C++ and is the outcome [OutOfBounds]
      here.  The sentinel-terminated loops run on fuel; [OutOfFuel]
      stands for a loop that does not end.
    - [new] is taken to succeed.  On the boards this firmware is
      written for, [size_t] is as wide as [int] and a [FunctionMap]
      takes several bytes, so an array that [new] can return has at
      most [INT_MAX] elements.  The statements about whole
      tables carry that bound on the capacity: below it the slot
      count [arraySize + 1] does not wrap and every slot index fits
      the [int] that [addHandler] keeps it in. *)

From Stdlib Require Import ZArith Lia.
From stdpp Require Import base decidable option list numbers.

Local Open Scope Z_scope.

(** ** Outcomes of running a member function *)

Inductive outcome (A : Type) : Type :=
  | Returned (a : A)
  | OutOfBounds
  | OutOfFuel.

Arguments Returned {A} a.
Arguments OutOfBounds {A}.
Arguments OutOfFuel {A}.

#[global] Instance outcome_ret : MRet outcome := fun A a => Returned a.

#[global] Instance outcome_bind : MBind outcome := fun A B k m =>
  match m with
  | Returned a => k a
  | OutOfBounds => OutOfBounds
  | OutOfFuel => OutOfFuel
  end.

Lemma bind_Returned {A B : Type} (a : A) (k : A -> outcome B) :
  (Returned a ≫= k) = k a.
Proof. reflexivity. Qed.

(** [for (unsigned int i = first; i < first + count; i++) body]: a
    counted loop.  The guard keeps [i] below its bound, so [i++] does
    not wrap inside the loop. *)
Fixpoint for_upto {St : Type} (count : nat) (i : Z)
    (body : Z -> St -> outcome St) (s : St) : outcome St :=
  match count with
  | O => Returned s
  | S count' => s' ← body i s; for_upto count' (i + 1) body s'
  end.

(** A scan result: the slot indices read, in order, and the outcome. *)
Definition traced (A : Type) : Type := (list Z * outcome A)%type.

Definition reading {A : Type} (i : Z) (r : traced A) : traced A :=
  (i :: r.1, r.2).

Section Mapper.

(** The state the handlers act on. *)
Context {World : Type}.

(** Width in bits of [unsigned int] and of [int]. *)
Variable uint_bits : Z.

Definition UINT_MOD : Z := 2 ^ uint_bits.
Definition INT_MAX : Z := 2 ^ (uint_bits - 1) - 1.

(** Conversion to [unsigned int]: reduction modulo [2 ^ uint_bits]. *)
Definition to_uint (z : Z) : Z := z mod UINT_MOD.

(** Conversion to [int]: the two's complement reading. *)
Definition to_int (z : Z) : Z :=
  let r := z mod UINT_MOD in
  if decide (r <= INT_MAX) then r else r - UINT_MOD.

(** Conversion to [unsigned char]. *)
Definition to_uchar (z : Z) : Z := z mod 256.

(** [bool (\*handler)(unsigned char, unsigned char)] *)
Definition Handler : Type := Z -> Z -> World -> bool * World.

(** [typedef struct { unsigned int functionCode; bool (\*handler)(...); } FunctionMap;] *)
Record FunctionMap : Type := mkFunctionMap {
  functionCode : Z;
  handler : option Handler
}.

(** The private members of the class. *)
Record FunctionMapper : Type := mkFunctionMapper {
  arraySize : Z;
  functionMapArray : list FunctionMap
}.

(** [a[i]] as an rvalue. *)
Definition slot_read (a : list FunctionMap) (i : Z) : option FunctionMap :=
  if decide (0 <= i) then a !! Z.to_nat i else None.

(** [a[i].functionCode = c; a[i].handler = h;] *)
Definition slot_write (a : list FunctionMap) (i : Z) (e : FunctionMap)
    : outcome (list FunctionMap) :=
  if decide (0 <= i < Z.of_nat (length a))
  then Returned (<[Z.to_nat i := e]> a)
  else OutOfBounds.

(** *** The constructor *)

(** [while (functionMapArray[fmaSize].handler != 0) fmaSize++;] *)
Fixpoint measure_loop (fuel : nat) (src : list FunctionMap) (fmaSize : Z)
    : outcome Z :=
  match fuel with
  | O => OutOfFuel
  | S fuel' =>
      match slot_read src fmaSize with
      | None => OutOfBounds
      | Some e =>
          match handler e with
          | None => Returned fmaSize
          | Some _ => measure_loop fuel' src (to_uint (fmaSize + 1))
          end
      end
  end.

(** [functionMapArray[i]] where [functionMapArray] may be null. *)
Definition src_read (src : option (list FunctionMap)) (i : Z)
    : outcome FunctionMap :=
  match src with
  | None => OutOfBounds
  | Some l =>
      match slot_read l i with
      | Some e => Returned e
      | None => OutOfBounds
      end
  end.

(** The body of the initialising loop, lines 17 and 18. *)
Definition init_body (src : option (list FunctionMap)) (fmaSize : Z)
    (i : Z) (a : list FunctionMap) : outcome (list FunctionMap) :=
  c ← (if decide (i < fmaSize)
       then e ← src_read src i; mret (functionCode e)
       else mret 0);
  h ← (if decide (i < fmaSize)
       then e ← src_read src i; mret (handler e)
       else mret None);
  slot_write a i (mkFunctionMap c h).

(** The contents of a slot of [new FunctionMap[n]] before it is
    assigned: indeterminate. *)
Variable uninit : FunctionMap.

(** [FunctionMapper::FunctionMapper(FunctionMap *functionMapArray, unsigned int size)] *)
Definition FunctionMapper_ctor (src : option (list FunctionMap)) (size : Z)
    : outcome FunctionMapper :=
  '(fmaSize, size) ←
    match src with
    | Some l =>
        fmaSize ← measure_loop (S (length l)) l 0;
        mret (fmaSize, if decide (size < fmaSize) then fmaSize else size)
    | None =>
        mret (0, if decide (size = 0) then 10 else size)
    end;
  let arraySize := size in
  let slots := to_uint (arraySize + 1) in
  a ← for_upto (Z.to_nat slots) 0 (init_body src fmaSize)
        (replicate (Z.to_nat slots) uninit);
  mret (mkFunctionMapper arraySize a).

(** *** [addHandler] *)

(** [if (this->functionMapArray[i].handler == 0) slot = i;] *)
Definition find_body (a : list FunctionMap) (i : Z) (slot : Z) : outcome Z :=
  match slot_read a i with
  | None => OutOfBounds
  | Some e =>
      match handler e with
      | None => Returned (to_int i)
      | Some _ => Returned slot
      end
  end.

(** [bool FunctionMapper::addHandler(unsigned char functionCode, bool (\*handler)(...))]

    The caller passes a [functionCode] between 0 and 255; storing it
    in the [unsigned int] field keeps its value.  Nothing in the body
    looks at [handler]: a null one is stored like any other. *)
Definition addHandler (t : FunctionMapper) (code : Z) (h : option Handler)
    : outcome (bool * FunctionMapper) :=
  slot ← for_upto (Z.to_nat (arraySize t)) 0
           (find_body (functionMapArray t)) (-1);
  if decide (slot <> -1) then
    a ← slot_write (functionMapArray t) slot (mkFunctionMap code h);
    mret (true, mkFunctionMapper (arraySize t) a)
  else
    mret (false, t).

(** *** [validateAddress] *)

Fixpoint validateAddress_loop (fuel : nat) (a : list FunctionMap)
    (code : Z) (i : Z) : traced bool :=
  match fuel with
  | O => ([], OutOfFuel)
  | S fuel' =>
      match slot_read a i with
      | None => ([i], OutOfBounds)
      | Some e =>
          match handler e with
          | None => ([i], Returned false)
          | Some _ =>
              if decide (functionCode e = code)
              then ([i], Returned true)
              else reading i
                     (validateAddress_loop fuel' a code (to_uint (i + 1)))
          end
      end
  end.

(** [bool FunctionMapper::validateAddress(unsigned int functionCode)] *)
Definition validateAddress (t : FunctionMapper) (code : Z) : traced bool :=
  validateAddress_loop (S (length (functionMapArray t)))
    (functionMapArray t) code 0.

(** *** [processValue] *)

Fixpoint processValue_loop (fuel : nat) (a : list FunctionMap)
    (code value : Z) (w : World) (i : Z) : traced (bool * World) :=
  match fuel with
  | O => ([], OutOfFuel)
  | S fuel' =>
      match slot_read a i with
      | None => ([i], OutOfBounds)
      | Some e =>
          match handler e with
          | None => ([i], Returned (false, w))
          | Some h =>
              if decide (functionCode e = code)
              then ([i], Returned (h (to_uchar code) value w))
              else reading i
                     (processValue_loop fuel' a code value w
                        (to_uint (i + 1)))
          end
      end
  end.

(** [bool FunctionMapper::processValue(unsigned int functionCode, unsigned char value)]

    The call [handler(functionCode, value)] on line 51 converts
    [functionCode] to the handler's [unsigned char] parameter; [value]
    is an [unsigned char] already. *)
Definition processValue (t : FunctionMapper) (code value : Z) (w : World)
    : traced (bool * World) :=
  processValue_loop (S (length (functionMapArray t)))
    (functionMapArray t) code value w 0.

(** *** What a slot holds *)

(** The empty slot, [{ 0, 0 }]. *)
Definition empty_slot : FunctionMap := mkFunctionMap 0 None.

(** Slot [j] exists and holds a handler. *)
Definition live_at (a : list FunctionMap) (j : Z) : Prop :=
  exists e h, slot_read a j = Some e /\ handler e = Some h.

(** Slot [j] exists and holds the sentinel handler. *)
Definition empty_at (a : list FunctionMap) (j : Z) : Prop :=
  exists e, slot_read a j = Some e /\ handler e = None.

(** Slot [j] is live and its code is not [code]: a scan steps over it. *)
Definition skipped_at (a : list FunctionMap) (code j : Z) : Prop :=
  exists e h,
    slot_read a j = Some e /\ handler e = Some h /\ functionCode e <> code.

(** Slot [j] is live, holds [code] and the handler [h]. *)
Definition hit_at (a : list FunctionMap) (code j : Z) (h : Handler) : Prop :=
  exists e,
    slot_read a j = Some e /\ handler e = Some h /\ functionCode e = code.

(** What the initialising loop leaves in slot [i]. *)
Definition init_slot (src : option (list FunctionMap)) (fmaSize i : Z)
    : FunctionMap :=
  if decide (i < fmaSize) then
    match src_read src i with
    | Returned e => e
    | _ => empty_slot
    end
  else empty_slot.

(** The argument [functionMapArray] of the constructor, read as the
    caller means it: either null, or an array that holds the entries
    [live], all with a handler, and then a sentinel entry. *)
Definition live_prefix (src : option (list FunctionMap))
    (live : list FunctionMap) : Prop :=
  match src with
  | None => live = []
  | Some l =>
      exists stop rest,
        l = live ++ stop :: rest /\ handler stop = None /\
        Forall (fun e => handler e <> None) live
  end.

(** The value the constructor stores in [arraySize], given the length
    [k] it measured: lines 8 and 10. *)
Definition capacity_for (src : option (list FunctionMap)) (size k : Z) : Z :=
  match src with
  | Some _ => if decide (size < k) then k else size
  | None => if decide (size = 0) then 10 else size
  end.

(** *** Callers *)

(** [addHandler] called once for each element of [adds], in order:
    the results of the calls and the table after the last one. *)
Fixpoint add_sequence (t : FunctionMapper) (adds : list (Z * option Handler))
    : outcome (list bool * FunctionMapper) :=
  match adds with
  | [] => mret ([], t)
  | (code, h) :: adds' =>
      '(b, t') ← addHandler t code h;
      '(bs, t'') ← add_sequence t' adds';
      mret (b :: bs, t'')
  end.

(** One call of a public member function. *)
Inductive operation : Type :=
  | OpAdd (code : Z) (h : option Handler)
  | OpValidate (code : Z)
  | OpProcess (code value : Z).

(** A call acts on the table and, through the handler it may invoke,
    on the world. *)
Definition run_operation (st : FunctionMapper * World) (op : operation)
    : outcome (FunctionMapper * World) :=
  match op with
  | OpAdd code h =>
      '(_, t') ← addHandler st.1 code h; mret (t', st.2)
  | OpValidate code =>
      _ ← (validateAddress st.1 code).2; mret st
  | OpProcess code value =>
      '(_, w') ← (processValue st.1 code value st.2).2; mret (st.1, w')
  end.

Fixpoint run_operations (st : FunctionMapper * World) (ops : list operation)
    : outcome (FunctionMapper * World) :=
  match ops with
  | [] => mret st
  | op :: ops' => st' ← run_operation st op; run_operations st' ops'
  end.

(** The representation invariant of a table of capacity [c]: [c + 1]
    slots, the last of them the terminator [{ 0, 0 }], and every slot
    index within the range of [int]. *)
Definition table_ok (t : FunctionMapper) : Prop :=
  0 <= arraySize t <= INT_MAX /\
  Z.of_nat (length (functionMapArray t)) = arraySize t + 1 /\
  slot_read (functionMapArray t) (arraySize t) = Some empty_slot.

(** ** Machine arithmetic *)

Hypothesis uint_bits_min : 16 <= uint_bits.

Lemma UINT_MOD_double : UINT_MOD = 2 * (INT_MAX + 1).
Proof.
  unfold UINT_MOD, INT_MAX.
  replace (2 ^ (uint_bits - 1) - 1 + 1) with (2 ^ (uint_bits - 1)) by lia.
  rewrite <- Z.pow_succ_r by lia. f_equal. lia.
Qed.

Lemma INT_MAX_min : 32767 <= INT_MAX.
Proof.
  unfold INT_MAX.
  assert (H : 2 ^ 15 <= 2 ^ (uint_bits - 1)) by (apply Z.pow_le_mono_r; lia).
  change (2 ^ 15) with 32768 in H. lia.
Qed.

Lemma to_uint_small z : 0 <= z < UINT_MOD -> to_uint z = z.
Proof. intros. unfold to_uint. by apply Z.mod_small. Qed.

Lemma to_int_small z : 0 <= z <= INT_MAX -> to_int z = z.
Proof.
  intros Hz. unfold to_int. pose proof UINT_MOD_double.
  rewrite Z.mod_small by lia. case_decide; lia.
Qed.

Ltac width :=
  pose proof UINT_MOD_double; pose proof INT_MAX_min; lia.

(** ** Reading and writing slots *)

Lemma slot_read_in a i e :
  slot_read a i = Some e -> 0 <= i < Z.of_nat (length a).
Proof.
  unfold slot_read. case_decide; [|done].
  intros Hlk%lookup_lt_Some. lia.
Qed.

Lemma slot_read_of_nat a (n : nat) : slot_read a (Z.of_nat n) = a !! n.
Proof. unfold slot_read. case_decide; [by rewrite Nat2Z.id | lia]. Qed.

Lemma slot_read_middle pre e post :
  slot_read (pre ++ e :: post) (Z.of_nat (length pre)) = Some e.
Proof. by rewrite slot_read_of_nat, list_lookup_middle. Qed.

Lemma slot_read_app_l pre post i :
  i < Z.of_nat (length pre) -> slot_read (pre ++ post) i = slot_read pre i.
Proof.
  intros. unfold slot_read. case_decide; [|done].
  apply lookup_app_l. lia.
Qed.

Lemma slot_read_app_r pre post i :
  Z.of_nat (length pre) <= i ->
  slot_read (pre ++ post) i = slot_read post (i - Z.of_nat (length pre)).
Proof.
  intros. unfold slot_read. rewrite !decide_True by lia.
  rewrite lookup_app_r by lia. f_equal. lia.
Qed.

Lemma slot_read_replicate n e i :
  0 <= i < Z.of_nat n -> slot_read (replicate n e) i = Some e.
Proof.
  intros. unfold slot_read. rewrite decide_True by lia.
  apply lookup_replicate_2. lia.
Qed.

Lemma slot_write_middle pre e post e' :
  slot_write (pre ++ e :: post) (Z.of_nat (length pre)) e'
  = Returned (pre ++ e' :: post).
Proof.
  unfold slot_write. rewrite decide_True.
  - rewrite Nat2Z.id.
    replace (length pre) with (length pre + 0)%nat at 1 by lia.
    by rewrite insert_app_r.
  - rewrite length_app. simpl. lia.
Qed.

(** A slot that exists splits the array around itself. *)
Lemma slot_read_split a i e :
  slot_read a i = Some e ->
  exists pre post, a = pre ++ e :: post /\ Z.of_nat (length pre) = i.
Proof.
  unfold slot_read. case_decide; [|done]. intros Hi.
  exists (take (Z.to_nat i) a), (drop (S (Z.to_nat i)) a). split.
  - by rewrite take_drop_middle.
  - apply lookup_lt_Some in Hi. rewrite length_take. lia.
Qed.

Lemma live_not_empty a j : live_at a j -> empty_at a j -> False.
Proof. intros (e & h & He & Hh) (e' & He' & Hh'). congruence. Qed.

(** ** Counted loops *)

Lemma for_upto_S {St : Type} (n : nat) i (body : Z -> St -> outcome St) s :
  for_upto (S n) i body s = s' ← body i s; for_upto n (i + 1) body s'.
Proof. reflexivity. Qed.

Lemma for_upto_app {St : Type} (n1 n2 : nat) i
    (body : Z -> St -> outcome St) s :
  for_upto (n1 + n2) i body s
  = s' ← for_upto n1 i body s; for_upto n2 (i + Z.of_nat n1) body s'.
Proof.
  revert i s. induction n1 as [|n1 IH]; intros i s; simpl.
  - by rewrite Z.add_0_r.
  - destruct (body i s) as [s'| |]; simpl; [|done..].
    rewrite IH. do 2 f_equal. lia.
Qed.

(** ** The sentinel-terminated scans *)

(** Both scans step over a run of [n] live slots whose codes differ
    from the one looked for, reading each of them once. *)
Lemma validateAddress_loop_skip a code (n : nat) : forall i fuel,
  0 <= i -> i + Z.of_nat n < UINT_MOD ->
  (forall j, i <= j < i + Z.of_nat n -> skipped_at a code j) ->
  validateAddress_loop (n + fuel) a code i
  = let r := validateAddress_loop fuel a code (i + Z.of_nat n) in
    (seqZ i (Z.of_nat n) ++ r.1, r.2).
Proof.
  induction n as [|n IH]; intros i fuel Hi Hlt Hskip.
  - simpl. rewrite Z.add_0_r. by destruct (validateAddress_loop _ _ _ _).
  - destruct (Hskip i) as (e & h & He & Hh & Hc); [lia|].
    change (S n + fuel)%nat with (S (n + fuel)).
    cbn [validateAddress_loop]. rewrite He, Hh, decide_False by done.
    rewrite to_uint_small by lia.
    rewrite IH by (first [lia | intros; apply Hskip; lia]).
    unfold reading. cbn [fst snd].
    replace (i + 1 + Z.of_nat n) with (i + Z.of_nat (S n)) by lia.
    rewrite (seqZ_cons i (Z.of_nat (S n))) by lia.
    replace (Z.pred (Z.of_nat (S n))) with (Z.of_nat n) by lia.
    by replace (Z.succ i) with (i + 1) by lia.
Qed.

Lemma processValue_loop_skip a code value w (n : nat) : forall i fuel,
  0 <= i -> i + Z.of_nat n < UINT_MOD ->
  (forall j, i <= j < i + Z.of_nat n -> skipped_at a code j) ->
  processValue_loop (n + fuel) a code value w i
  = let r := processValue_loop fuel a code value w (i + Z.of_nat n) in
    (seqZ i (Z.of_nat n) ++ r.1, r.2).
Proof.
  induction n as [|n IH]; intros i fuel Hi Hlt Hskip.
  - simpl. rewrite Z.add_0_r. by destruct (processValue_loop _ _ _ _ _ _).
  - destruct (Hskip i) as (e & h & He & Hh & Hc); [lia|].
    change (S n + fuel)%nat with (S (n + fuel)).
    cbn [processValue_loop]. rewrite He, Hh, decide_False by done.
    rewrite to_uint_small by lia.
    rewrite IH by (first [lia | intros; apply Hskip; lia]).
    unfold reading. cbn [fst snd].
    replace (i + 1 + Z.of_nat n) with (i + Z.of_nat (S n)) by lia.
    rewrite (seqZ_cons i (Z.of_nat (S n))) by lia.
    replace (Z.pred (Z.of_nat (S n))) with (Z.of_nat n) by lia.
    by replace (Z.succ i) with (i + 1) by lia.
Qed.

(** The fuel of a scan: enough to reach a slot [stop] that exists. *)
Lemma scan_fuel (a : list FunctionMap) stop e :
  slot_read a stop = Some e ->
  exists k, S (length a) = (Z.to_nat stop + S k)%nat.
Proof.
  intros H%slot_read_in.
  exists (length a - Z.to_nat stop)%nat. lia.
Qed.

Lemma seqZ_upto stop : 0 <= stop -> seqZ 0 stop ++ [stop] = seqZ 0 (stop + 1).
Proof.
  intros. rewrite seqZ_app by lia. reflexivity.
Qed.

(** A scan that meets the sentinel first answers [false]. *)
Lemma validateAddress_stops t code stop :
  0 <= stop < UINT_MOD ->
  (forall j, 0 <= j < stop -> skipped_at (functionMapArray t) code j) ->
  empty_at (functionMapArray t) stop ->
  validateAddress t code = (seqZ 0 (stop + 1), Returned false).
Proof.
  intros Hstop Hskip (e & He & Hh). unfold validateAddress.
  destruct (scan_fuel _ _ _ He) as [k ->].
  rewrite validateAddress_loop_skip by (first [lia | intros; apply Hskip; lia]).
  cbn [validateAddress_loop]. rewrite (Z2Nat.id stop) by lia.
  rewrite Z.add_0_l, He, Hh. cbn [fst snd].
  by rewrite seqZ_upto by lia.
Qed.

(** A scan that meets the code first answers [true]. *)
Lemma validateAddress_hits t code hit h :
  0 <= hit < UINT_MOD ->
  (forall j, 0 <= j < hit -> skipped_at (functionMapArray t) code j) ->
  hit_at (functionMapArray t) code hit h ->
  validateAddress t code = (seqZ 0 (hit + 1), Returned true).
Proof.
  intros Hhit Hskip (e & He & Hh & Hc). unfold validateAddress.
  destruct (scan_fuel _ _ _ He) as [k ->].
  rewrite validateAddress_loop_skip by (first [lia | intros; apply Hskip; lia]).
  cbn [validateAddress_loop]. rewrite (Z2Nat.id hit) by lia.
  rewrite Z.add_0_l, He, Hh, decide_True by done. cbn [fst snd].
  by rewrite seqZ_upto by lia.
Qed.

Lemma processValue_stops t code value w stop :
  0 <= stop < UINT_MOD ->
  (forall j, 0 <= j < stop -> skipped_at (functionMapArray t) code j) ->
  empty_at (functionMapArray t) stop ->
  processValue t code value w = (seqZ 0 (stop + 1), Returned (false, w)).
Proof.
  intros Hstop Hskip (e & He & Hh). unfold processValue.
  destruct (scan_fuel _ _ _ He) as [k ->].
  rewrite processValue_loop_skip by (first [lia | intros; apply Hskip; lia]).
  cbn [processValue_loop]. rewrite (Z2Nat.id stop) by lia.
  rewrite Z.add_0_l, He, Hh. cbn [fst snd].
  by rewrite seqZ_upto by lia.
Qed.

Lemma processValue_hits t code value w hit h :
  0 <= hit < UINT_MOD ->
  (forall j, 0 <= j < hit -> skipped_at (functionMapArray t) code j) ->
  hit_at (functionMapArray t) code hit h ->
  processValue t code value w
  = (seqZ 0 (hit + 1), Returned (h (to_uchar code) value w)).
Proof.
  intros Hhit Hskip (e & He & Hh & Hc). unfold processValue.
  destruct (scan_fuel _ _ _ He) as [k ->].
  rewrite processValue_loop_skip by (first [lia | intros; apply Hskip; lia]).
  cbn [processValue_loop]. rewrite (Z2Nat.id hit) by lia.
  rewrite Z.add_0_l, He, Hh, decide_True by done. cbn [fst snd].
  by rewrite seqZ_upto by lia.
Qed.

(** The fuel given to the scans is never what ends them: on an array
    that [unsigned int] can index, a scan returns or leaves the
    array. *)
Lemma validateAddress_loop_fuel a code (fuel : nat) : forall i,
  Z.of_nat (length a) < UINT_MOD ->
  0 <= i <= Z.of_nat (length a) ->
  Z.of_nat (length a) - i < Z.of_nat fuel ->
  (validateAddress_loop fuel a code i).2 <> OutOfFuel.
Proof.
  induction fuel as [|fuel IH]; intros i Hlen Hi Hfuel; [lia|].
  cbn [validateAddress_loop].
  destruct (slot_read a i) as [e|] eqn:He; [|done].
  apply slot_read_in in He.
  destruct (handler e); [|done]. case_decide; [done|].
  rewrite to_uint_small by lia. apply IH; lia.
Qed.

Lemma validateAddress_fuel t code :
  Z.of_nat (length (functionMapArray t)) < UINT_MOD ->
  (validateAddress t code).2 <> OutOfFuel.
Proof. intros. apply validateAddress_loop_fuel; lia. Qed.

Lemma processValue_loop_fuel a code value w (fuel : nat) : forall i,
  Z.of_nat (length a) < UINT_MOD ->
  0 <= i <= Z.of_nat (length a) ->
  Z.of_nat (length a) - i < Z.of_nat fuel ->
  (processValue_loop fuel a code value w i).2 <> OutOfFuel.
Proof.
  induction fuel as [|fuel IH]; intros i Hlen Hi Hfuel; [lia|].
  cbn [processValue_loop].
  destruct (slot_read a i) as [e|] eqn:He; [|done].
  apply slot_read_in in He.
  destruct (handler e); [|done]. case_decide; [done|].
  rewrite to_uint_small by lia. apply IH; lia.
Qed.

Lemma processValue_fuel t code value w :
  Z.of_nat (length (functionMapArray t)) < UINT_MOD ->
  (processValue t code value w).2 <> OutOfFuel.
Proof. intros. apply processValue_loop_fuel; lia. Qed.

(** ** The slot search of [addHandler] *)

Lemma slot_read_is_Some a i :
  0 <= i < Z.of_nat (length a) -> exists e, slot_read a i = Some e.
Proof.
  intros. unfold slot_read. rewrite decide_True by lia.
  apply lookup_lt_is_Some_2. lia.
Qed.

Lemma find_body_live a i slot e h :
  slot_read a i = Some e -> handler e = Some h ->
  find_body a i slot = Returned slot.
Proof. intros He Hh. unfold find_body. by rewrite He, Hh. Qed.

Lemma find_body_empty a i slot e :
  slot_read a i = Some e -> handler e = None ->
  find_body a i slot = Returned (to_int i).
Proof. intros He Hh. unfold find_body. by rewrite He, Hh. Qed.

(** Over live slots the search keeps what it had. *)
Lemma find_loop_live a (n : nat) : forall i slot,
  (forall j, i <= j < i + Z.of_nat n -> live_at a j) ->
  for_upto n i (find_body a) slot = Returned slot.
Proof.
  induction n as [|n IH]; intros i slot Hlive; [done|].
  destruct (Hlive i) as (e & h & He & Hh); [lia|].
  rewrite for_upto_S, (find_body_live _ _ _ _ _ He Hh), bind_Returned.
  apply IH. intros. apply Hlive. lia.
Qed.

(** Inside the array the search runs to its end. *)
Lemma find_loop_returns a (n : nat) : forall i slot,
  0 <= i -> i + Z.of_nat n <= Z.of_nat (length a) ->
  exists slot', for_upto n i (find_body a) slot = Returned slot'.
Proof.
  induction n as [|n IH]; intros i slot Hi Hn; [by eexists|].
  destruct (slot_read_is_Some a i) as [e He]; [lia|].
  rewrite for_upto_S.
  destruct (handler e) as [h|] eqn:Hh.
  - rewrite (find_body_live _ _ _ _ _ He Hh), bind_Returned. apply IH; lia.
  - rewrite (find_body_empty _ _ _ _ He Hh), bind_Returned. apply IH; lia.
Qed.

(** The search ends on the last empty slot below its bound. *)
Lemma find_loop_last a (n : nat) j slot :
  0 <= j < Z.of_nat n -> Z.of_nat n <= Z.of_nat (length a) ->
  empty_at a j ->
  (forall k, j < k < Z.of_nat n -> live_at a k) ->
  for_upto n 0 (find_body a) slot = Returned (to_int j).
Proof.
  intros Hj Hn (e & He & Hh) Hlive.
  replace n with (Z.to_nat j + S (n - Z.to_nat j - 1))%nat by lia.
  rewrite for_upto_app.
  destruct (find_loop_returns a (Z.to_nat j) 0 slot) as [s' ->]; [lia..|].
  rewrite bind_Returned, Z.add_0_l, Z2Nat.id by lia.
  rewrite for_upto_S, (find_body_empty _ _ _ _ He Hh), bind_Returned.
  apply find_loop_live. intros k Hk. apply Hlive. lia.
Qed.

(** [addHandler] on a table whose real slots are all live. *)
Lemma addHandler_full t code h :
  (forall j, 0 <= j < arraySize t -> live_at (functionMapArray t) j) ->
  addHandler t code h = Returned (false, t).
Proof.
  intros Hlive. unfold addHandler.
  rewrite find_loop_live by (intros; apply Hlive; lia).
  rewrite bind_Returned. by rewrite decide_False by lia.
Qed.

(** [addHandler] on a table whose last empty real slot is [j]. *)
Lemma addHandler_last_empty t code h j :
  0 <= j < arraySize t -> j <= INT_MAX ->
  arraySize t <= Z.of_nat (length (functionMapArray t)) ->
  empty_at (functionMapArray t) j ->
  (forall k, j < k < arraySize t -> live_at (functionMapArray t) k) ->
  addHandler t code h
  = Returned (true,
      mkFunctionMapper (arraySize t)
        (<[Z.to_nat j := mkFunctionMap code h]> (functionMapArray t))).
Proof.
  intros Hj Hint Hlen Hempty Hlive. unfold addHandler.
  rewrite (find_loop_last _ _ j) by (first [lia | done | intros; apply Hlive; lia]).
  rewrite to_int_small, bind_Returned by lia.
  rewrite decide_True by lia.
  unfold slot_write. by rewrite decide_True by lia.
Qed.

(** ** The constructor *)

Lemma FunctionMap_eta e : mkFunctionMap (functionCode e) (handler e) = e.
Proof. by destruct e. Qed.

Lemma measure_loop_skip l (n : nat) : forall i fuel,
  0 <= i -> i + Z.of_nat n < UINT_MOD ->
  (forall j, i <= j < i + Z.of_nat n -> live_at l j) ->
  measure_loop (n + fuel) l i = measure_loop fuel l (i + Z.of_nat n).
Proof.
  induction n as [|n IH]; intros i fuel Hi Hlt Hlive.
  - simpl. by rewrite Z.add_0_r.
  - destruct (Hlive i) as (e & h & He & Hh); [lia|].
    change (S n + fuel)%nat with (S (n + fuel)).
    cbn [measure_loop]. rewrite He, Hh, to_uint_small by lia.
    rewrite IH by (first [lia | intros; apply Hlive; lia]).
    f_equal. lia.
Qed.

(** The measuring loop returns the index of the first sentinel. *)
Lemma measure_loop_finds l k :
  0 <= k < UINT_MOD ->
  (forall j, 0 <= j < k -> live_at l j) ->
  empty_at l k ->
  measure_loop (S (length l)) l 0 = Returned k.
Proof.
  intros Hk Hlive (e & He & Hh).
  destruct (scan_fuel _ _ _ He) as [m ->].
  rewrite measure_loop_skip by (first [lia | intros; apply Hlive; lia]).
  cbn [measure_loop]. rewrite Z.add_0_l, Z2Nat.id by lia.
  by rewrite He, Hh.
Qed.

Lemma init_body_spec src k i pre x post :
  i = Z.of_nat (length pre) ->
  (i < k -> exists e, src_read src i = Returned e) ->
  init_body src k i (pre ++ x :: post)
  = Returned (pre ++ init_slot src k i :: post).
Proof.
  intros -> Hsrc. unfold init_body, init_slot.
  case_decide as Hlt.
  - destruct Hsrc as [e ->]; [done|].
    rewrite !bind_Returned. unfold mret, outcome_ret.
    rewrite FunctionMap_eta. apply slot_write_middle.
  - unfold mret, outcome_ret. rewrite !bind_Returned.
    apply slot_write_middle.
Qed.

(** The initialising loop assigns every slot it is given. *)
Lemma init_loop_spec src k (m : nat) : forall pre rest,
  length rest = m ->
  (forall j, Z.of_nat (length pre) <= j < Z.of_nat (length pre + m) ->
             j < k -> exists e, src_read src j = Returned e) ->
  for_upto m (Z.of_nat (length pre)) (init_body src k) (pre ++ rest)
  = Returned (pre ++ (init_slot src k <$> seqZ (Z.of_nat (length pre)) (Z.of_nat m))).
Proof.
  induction m as [|m IH]; intros pre rest Hlen Hsrc.
  - destruct rest; [|done]. by rewrite seqZ_nil by lia.
  - destruct rest as [|x rest]; [done|].
    rewrite for_upto_S, (init_body_spec _ _ _ pre x rest), bind_Returned
      by (first [done | intros; apply Hsrc; lia]).
    rewrite seqZ_cons by lia. rewrite fmap_cons.
    replace (Z.succ (Z.of_nat (length pre)))
      with (Z.of_nat (length pre) + 1) by lia.
    replace (Z.pred (Z.of_nat (S m))) with (Z.of_nat m) by lia.
    rewrite (cons_middle _ pre rest), (cons_middle _ pre (_ <$> _)), !app_assoc.
    replace (Z.of_nat (length pre) + 1)
      with (Z.of_nat (length (pre ++ [init_slot src k (Z.of_nat (length pre))])))
      by (rewrite length_app; simpl; lia).
    rewrite IH.
    + done.
    + simpl in Hlen. lia.
    + intros j Hj. apply Hsrc. rewrite length_app in Hj. simpl in Hj. lia.
Qed.

(** The slots of a fresh table: the live prefix of the initial list
    and empty slots after it. *)
Lemma init_image src live (n : nat) :
  (forall (i : nat) e,
      live !! i = Some e -> src_read src (Z.of_nat i) = Returned e) ->
  (length live <= n)%nat ->
  init_slot src (Z.of_nat (length live)) <$> seqZ 0 (Z.of_nat n)
  = live ++ replicate (n - length live) empty_slot.
Proof.
  intros Hsrc Hn. apply list_eq. intros i.
  rewrite list_lookup_fmap.
  destruct (decide (i < n)%nat) as [Hi|Hi].
  - rewrite lookup_seqZ_lt by lia. simpl. unfold init_slot.
    rewrite Z.add_0_l.
    destruct (decide (i < length live)%nat) as [Hl|Hl].
    + destruct (lookup_lt_is_Some_2 live i Hl) as [e He].
      rewrite decide_True, (Hsrc i e He) by lia.
      by rewrite lookup_app_l, He.
    + rewrite decide_False by lia.
      rewrite lookup_app_r by lia. symmetry.
      apply lookup_replicate_2. lia.
  - rewrite lookup_seqZ_ge by lia. simpl. symmetry.
    apply lookup_ge_None. rewrite length_app, length_replicate. lia.
Qed.

Lemma Forall_live_at live post j :
  Forall (fun e => handler e <> None) live ->
  0 <= j < Z.of_nat (length live) ->
  live_at (live ++ post) j.
Proof.
  intros Hall Hj. unfold live_at.
  rewrite slot_read_app_l by lia.
  destruct (slot_read_is_Some live j Hj) as [e He].
  assert (Hne : handler e <> None).
  { unfold slot_read in He. case_decide; [|done].
    exact (Forall_lookup_1 _ _ _ _ Hall He). }
  destruct (handler e) as [h|] eqn:Hh; [|done]. by exists e, h.
Qed.

Lemma live_prefix_read src live (i : nat) e :
  live_prefix src live -> live !! i = Some e ->
  src_read src (Z.of_nat i) = Returned e.
Proof.
  destruct src as [l|]; simpl.
  - intros (stop & rest & -> & _ & _) He. unfold src_read.
    rewrite slot_read_of_nat, lookup_app_l by by eapply lookup_lt_Some.
    by rewrite He.
  - by intros ->.
Qed.

(** The constructor returns, whatever it is given, with the size
    above and every allocated slot assigned. *)
Lemma ctor_spec src live size :
  live_prefix src live ->
  0 <= size < UINT_MOD -> Z.of_nat (length live) < UINT_MOD ->
  let c := capacity_for src size (Z.of_nat (length live)) in
  FunctionMapper_ctor src size
  = Returned (mkFunctionMapper c
      (init_slot src (Z.of_nat (length live))
         <$> seqZ 0 (Z.of_nat (Z.to_nat (to_uint (c + 1)))))).
Proof.
  intros Hsrc Hsize Hk c. unfold FunctionMapper_ctor.
  assert (Hm :
    match src with
    | Some l =>
        fmaSize ← measure_loop (S (length l)) l 0;
        mret (fmaSize, if decide (size < fmaSize) then fmaSize else size)
    | None => mret (0, if decide (size = 0) then 10 else size)
    end = Returned (Z.of_nat (length live), c)).
  { subst c. destruct src as [l|]; simpl in Hsrc.
    - destruct Hsrc as (stop & rest & -> & Hstop & Hlive).
      rewrite (measure_loop_finds _ (Z.of_nat (length live))).
      + done.
      + lia.
      + intros. by apply Forall_live_at.
      + exists stop. by rewrite slot_read_middle.
    - by subst live. }
  rewrite Hm, bind_Returned. cbn zeta.
  set (n := Z.to_nat (to_uint (c + 1))).
  enough (Hinit :
    for_upto n 0 (init_body src (Z.of_nat (length live))) (replicate n uninit)
    = Returned (init_slot src (Z.of_nat (length live)) <$> seqZ 0 (Z.of_nat n)))
    by by rewrite Hinit.
  apply (init_loop_spec src (Z.of_nat (length live)) n [] (replicate n uninit));
    [by rewrite length_replicate|].
  simpl. intros j Hj Hjk.
  destruct (lookup_lt_is_Some_2 live (Z.to_nat j)) as [e He]; [lia|].
  exists e. rewrite <- (Z2Nat.id j) by lia.
  by eapply live_prefix_read.
Qed.

(** When the slot count [c + 1] does not wrap, the storage is the
    live prefix, then empty slots up to and including slot [c]. *)
Lemma ctor_layout src live size :
  live_prefix src live ->
  0 <= size < UINT_MOD ->
  let c := capacity_for src size (Z.of_nat (length live)) in
  c + 1 < UINT_MOD ->
  FunctionMapper_ctor src size
  = Returned (mkFunctionMapper c
      (live ++ replicate (Z.to_nat (c + 1) - length live) empty_slot)).
Proof.
  intros Hsrc Hsize c Hc.
  assert (Hcap : 0 <= c /\ Z.of_nat (length live) <= c).
  { subst c. unfold capacity_for in *. destruct src; simpl in Hsrc.
    - case_decide; lia.
    - subst live. simpl. case_decide; lia. }
  rewrite (ctor_spec src live) by (first [done | lia]).
  fold c. rewrite to_uint_small by lia.
  rewrite init_image; [done| |lia].
  intros i e. by apply live_prefix_read.
Qed.

(** ** Where a scan comes to rest *)

(** Among the first [m] slots either every one is stepped over, or
    there is a first one that ends the scan: an empty slot or a hit. *)
Lemma scan_reach a code (m : nat) :
  Z.of_nat m <= Z.of_nat (length a) ->
  (forall j, 0 <= j < Z.of_nat m -> skipped_at a code j) \/
  exists stop,
    0 <= stop < Z.of_nat m /\
    (forall j, 0 <= j < stop -> skipped_at a code j) /\
    (empty_at a stop \/ exists h, hit_at a code stop h).
Proof.
  induction m as [|m IH]; intros Hm; [left; intros; lia|].
  destruct IH as [Hskip|(stop & Hstop & Hskip & Hend)]; [lia| |].
  - destruct (slot_read_is_Some a (Z.of_nat m)) as [e He]; [lia|].
    destruct (handler e) as [h|] eqn:Hh.
    + destruct (decide (functionCode e = code)) as [Hc|Hc].
      * right. exists (Z.of_nat m). split; [lia|]. split; [done|].
        right. exists h, e. done.
      * left. intros j Hj.
        destruct (decide (j = Z.of_nat m)) as [->|]; [by exists e, h|].
        apply Hskip. lia.
    + right. exists (Z.of_nat m). split; [lia|]. split; [done|].
      left. by exists e.
  - right. exists stop. split; [lia|]. done.
Qed.

(** Among the first [m] slots either every one is live, or there is a
    last empty one. *)
Lemma last_empty a (m : nat) :
  Z.of_nat m <= Z.of_nat (length a) ->
  (forall j, 0 <= j < Z.of_nat m -> live_at a j) \/
  exists j,
    0 <= j < Z.of_nat m /\ empty_at a j /\
    (forall k, j < k < Z.of_nat m -> live_at a k).
Proof.
  induction m as [|m IH]; intros Hm; [left; intros; lia|].
  destruct (slot_read_is_Some a (Z.of_nat m)) as [e He]; [lia|].
  destruct (handler e) as [h|] eqn:Hh.
  - assert (Hm_live : live_at a (Z.of_nat m)) by by exists e, h.
    destruct IH as [Hlive|(j & Hj & Hempty & Hlive)]; [lia| |].
    + left. intros j Hj.
      destruct (decide (j = Z.of_nat m)) as [->|]; [done|].
      apply Hlive. lia.
    + right. exists j. split; [lia|]. split; [done|].
      intros k Hk.
      destruct (decide (k = Z.of_nat m)) as [->|]; [done|].
      apply Hlive. lia.
  - right. exists (Z.of_nat m). split; [lia|]. split; [by exists e|].
    intros k Hk. lia.
Qed.

Lemma skipped_not_hit a code j h : skipped_at a code j -> hit_at a code j h -> False.
Proof. intros (e & h' & He & _ & Hc) (e' & He' & _ & Hc'). congruence. Qed.

Lemma skipped_not_empty a code j : skipped_at a code j -> empty_at a j -> False.
Proof. intros (e & h' & He & Hh & _) (e' & He' & Hh'). congruence. Qed.

Lemma skipped_live a code j : skipped_at a code j -> live_at a j.
Proof. intros (e & h & He & Hh & _). by exists e, h. Qed.

Lemma hit_live a code j h : hit_at a code j h -> live_at a j.
Proof. intros (e & He & Hh & _). by exists e, h. Qed.

(** ** Tables laid out as lists *)

Lemma slot_read_insert_eq a j e :
  0 <= j < Z.of_nat (length a) ->
  slot_read (<[Z.to_nat j := e]> a) j = Some e.
Proof.
  intros. unfold slot_read. rewrite decide_True by lia.
  apply list_lookup_insert_eq. lia.
Qed.

Lemma slot_read_insert_ne a j i e :
  0 <= j -> i <> j ->
  slot_read (<[Z.to_nat j := e]> a) i = slot_read a i.
Proof.
  intros. unfold slot_read. case_decide; [|done].
  apply list_lookup_insert_ne. lia.
Qed.

Lemma Forall_live_middle pre filled post k :
  Forall (fun e => handler e <> None) filled ->
  Z.of_nat (length pre) <= k < Z.of_nat (length pre) + Z.of_nat (length filled) ->
  live_at (pre ++ filled ++ post) k.
Proof.
  intros Hall Hk. unfold live_at. rewrite slot_read_app_r by lia.
  apply Forall_live_at; [done|lia].
Qed.

Lemma Forall_skipped_at l post code j :
  Forall (fun e => handler e <> None /\ functionCode e <> code) l ->
  0 <= j < Z.of_nat (length l) ->
  skipped_at (l ++ post) code j.
Proof.
  intros Hall Hj. unfold skipped_at.
  rewrite slot_read_app_l by lia.
  destruct (slot_read_is_Some l j Hj) as [e He].
  assert (Hne : handler e <> None /\ functionCode e <> code).
  { unfold slot_read in He. case_decide; [|done].
    exact (Forall_lookup_1 _ _ _ _ Hall He). }
  destruct Hne as [Hne Hc].
  destruct (handler e) as [h|] eqn:Hh; [|done]. by exists e, h.
Qed.

(** [addHandler] on a table whose last empty real slot follows [pre]. *)
Lemma addHandler_split c pre e filled post code h :
  handler e = None ->
  Forall (fun e => handler e <> None) filled ->
  c = Z.of_nat (length pre) + 1 + Z.of_nat (length filled) ->
  Z.of_nat (length pre) <= INT_MAX ->
  addHandler (mkFunctionMapper c (pre ++ e :: filled ++ post)) code h
  = Returned (true,
      mkFunctionMapper c (pre ++ mkFunctionMap code h :: filled ++ post)).
Proof.
  intros He Hfilled -> Hint.
  rewrite (addHandler_last_empty _ code h (Z.of_nat (length pre))); simpl.
  - rewrite Nat2Z.id, insert_app_r_alt, Nat.sub_diag by lia. done.
  - lia.
  - done.
  - rewrite !length_app. simpl. rewrite length_app. lia.
  - exists e. by rewrite slot_read_middle.
  - intros k Hk.
    replace (pre ++ e :: filled ++ post) with ((pre ++ [e]) ++ filled ++ post)
      by by rewrite <- app_assoc.
    apply Forall_live_middle; [done|]. rewrite length_app. simpl. lia.
Qed.

(** A full table stays as it is, however often [addHandler] is called. *)
Lemma add_sequence_full t adds :
  (forall j, 0 <= j < arraySize t -> live_at (functionMapArray t) j) ->
  add_sequence t adds = Returned (replicate (length adds) false, t).
Proof.
  intros Hfull. induction adds as [|[code h] adds IH]; [done|].
  cbn [add_sequence]. rewrite addHandler_full by done.
  rewrite bind_Returned. cbn beta iota. by rewrite IH.
Qed.

(** The scenario of the specification: capacity 5, two initial entries. *)
Lemma ctor_five_two e1 e2 stop rest :
  handler e1 <> None -> handler e2 <> None -> handler stop = None ->
  FunctionMapper_ctor (Some (e1 :: e2 :: stop :: rest)) 5
  = Returned (mkFunctionMapper 5
      [e1; e2; empty_slot; empty_slot; empty_slot; empty_slot]).
Proof.
  intros H1 H2 Hstop.
  assert (Hsrc : live_prefix (Some (e1 :: e2 :: stop :: rest)) [e1; e2]).
  { exists stop, rest. split_and!; [done..|]. by repeat constructor. }
  rewrite (ctor_layout _ [e1; e2] 5 Hsrc); [done|width|simpl; width].
Qed.

Lemma add_five_two e1 e2 code h :
  addHandler
    (mkFunctionMapper 5 [e1; e2; empty_slot; empty_slot; empty_slot; empty_slot])
    code h
  = Returned (true,
      mkFunctionMapper 5
        [e1; e2; empty_slot; empty_slot; mkFunctionMap code h; empty_slot]).
Proof.
  apply (addHandler_split 5 [e1; e2; empty_slot; empty_slot] empty_slot []
           [empty_slot] code h); [done|done|done|simpl; width].
Qed.

(** Filling a table: each call takes the empty real slot of highest
    index, so the entries end up in the reverse of the order of the
    calls. *)
Lemma add_sequence_fills adds : forall filled post c,
  Forall (fun p => p.2 <> None) adds ->
  Forall (fun e => handler e <> None) filled ->
  c = Z.of_nat (length adds) + Z.of_nat (length filled) ->
  c - 1 <= INT_MAX ->
  add_sequence
    (mkFunctionMapper c (replicate (length adds) empty_slot ++ filled ++ post))
    adds
  = Returned (replicate (length adds) true,
      mkFunctionMapper c
        (reverse ((fun p => mkFunctionMap p.1 p.2) <$> adds) ++ filled ++ post)).
Proof.
  induction adds as [|[code h] adds IH]; intros filled post c Hadds Hfilled Hc Hint;
    [done|].
  apply Forall_cons_1 in Hadds as [Hh Hadds]. simpl in Hh, Hc.
  cbn [add_sequence length]. rewrite replicate_S_end, <- app_assoc.
  change ([empty_slot] ++ filled ++ post) with (empty_slot :: filled ++ post).
  rewrite addHandler_split;
    [|done|done|rewrite length_replicate; lia|rewrite length_replicate; lia].
  rewrite bind_Returned. cbn beta iota.
  change (mkFunctionMap code h :: filled ++ post)
    with ((mkFunctionMap code h :: filled) ++ post).
  rewrite IH; [|done|by constructor|simpl; lia|lia].
  rewrite bind_Returned. cbn beta iota. unfold mret, outcome_ret.
  rewrite fmap_cons, reverse_cons, <- app_assoc. done.
Qed.

(** ** The representation invariant *)

Lemma table_ok_ctor src live size :
  live_prefix src live ->
  0 <= size < UINT_MOD ->
  let c := capacity_for src size (Z.of_nat (length live)) in
  c <= INT_MAX ->
  exists t0,
    FunctionMapper_ctor src size = Returned t0 /\ arraySize t0 = c /\
    table_ok t0.
Proof.
  intros Hsrc Hsize c Hc.
  assert (Hcap : 0 <= c /\ Z.of_nat (length live) <= c).
  { subst c. unfold capacity_for in *. destruct src; simpl in Hsrc.
    - case_decide; lia.
    - subst live. simpl. case_decide; lia. }
  eexists. split; [apply (ctor_layout src live size Hsrc Hsize); fold c; width|].
  fold c. split; [done|]. unfold table_ok. simpl. split_and!.
  - lia.
  - done.
  - rewrite length_app, length_replicate. lia.
  - rewrite slot_read_app_r by lia. apply slot_read_replicate. lia.
Qed.

Lemma table_ok_addHandler t code h :
  table_ok t ->
  exists b t',
    addHandler t code h = Returned (b, t') /\ arraySize t' = arraySize t /\
    table_ok t'.
Proof.
  intros (Hc & Hlen & Hterm).
  destruct (last_empty (functionMapArray t) (Z.to_nat (arraySize t)))
    as [Hlive|(j & Hj & Hempty & Hlive)]; [lia| |].
  - exists false, t. split; [|done].
    apply addHandler_full. intros. apply Hlive. lia.
  - eexists true, _. split.
    + apply (addHandler_last_empty t code h j); [lia|lia|lia|done|].
      intros. apply Hlive. lia.
    + simpl. split; [done|]. unfold table_ok. simpl. split_and!.
      * lia.
      * lia.
      * rewrite length_insert. lia.
      * rewrite slot_read_insert_ne by lia. done.
Qed.

(** On a table that satisfies the invariant a scan comes to rest at
    or before the terminator. *)
Lemma table_ok_scan t code :
  table_ok t ->
  exists stop,
    0 <= stop <= arraySize t /\
    (forall j, 0 <= j < stop -> skipped_at (functionMapArray t) code j) /\
    (empty_at (functionMapArray t) stop \/
     exists h, hit_at (functionMapArray t) code stop h).
Proof.
  intros (Hc & Hlen & Hterm).
  destruct (scan_reach (functionMapArray t) code (Z.to_nat (arraySize t + 1)))
    as [Hskip|(stop & Hstop & Hskip & Hend)]; [lia| |].
  - exfalso.
    apply (skipped_not_empty (functionMapArray t) code (arraySize t));
      [apply Hskip; lia|by exists empty_slot].
  - exists stop. split; [lia|done].
Qed.

Lemma table_ok_validateAddress t code :
  table_ok t ->
  exists b stop,
    0 <= stop <= arraySize t /\
    validateAddress t code = (seqZ 0 (stop + 1), Returned b).
Proof.
  intros Hok. pose proof Hok as (Hc & _ & _).
  destruct (table_ok_scan t code Hok) as (stop & Hstop & Hskip & [Hempty|[h Hhit]]).
  - exists false, stop. split; [done|].
    apply validateAddress_stops; [width|done..].
  - exists true, stop. split; [done|].
    apply (validateAddress_hits t code stop h); [width|done..].
Qed.

Lemma table_ok_processValue t code value w :
  table_ok t ->
  exists r stop,
    0 <= stop <= arraySize t /\
    processValue t code value w = (seqZ 0 (stop + 1), Returned r).
Proof.
  intros Hok. pose proof Hok as (Hc & _ & _).
  destruct (table_ok_scan t code Hok) as (stop & Hstop & Hskip & [Hempty|[h Hhit]]).
  - exists (false, w), stop. split; [done|].
    apply processValue_stops; [width|done..].
  - exists (h (to_uchar code) value w), stop. split; [done|].
    apply processValue_hits; [width|done..].
Qed.

Lemma table_ok_run_operation t w op :
  table_ok t ->
  exists t' w',
    run_operation (t, w) op = Returned (t', w') /\ arraySize t' = arraySize t /\
    table_ok t'.
Proof.
  intros Hok. destruct op as [code h|code|code value]; simpl.
  - destruct (table_ok_addHandler t code h Hok) as (b & t' & -> & Hsize & Hok').
    by exists t', w.
  - destruct (table_ok_validateAddress t code Hok) as (b & stop & _ & ->).
    by exists t, w.
  - destruct (table_ok_processValue t code value w Hok)
      as ([b w'] & stop & _ & ->).
    by exists t, w'.
Qed.

Lemma table_ok_run_operations ops : forall t w,
  table_ok t ->
  exists t' w',
    run_operations (t, w) ops = Returned (t', w') /\ arraySize t' = arraySize t /\
    table_ok t'.
Proof.
  induction ops as [|op ops IH]; intros t w Hok; [by exists t, w|].
  destruct (table_ok_run_operation t w op Hok) as (t1 & w1 & Hrun & Hsize & Hok1).
  destruct (IH t1 w1 Hok1) as (t2 & w2 & Hrun2 & Hsize2 & Hok2).
  exists t2, w2. cbn [run_operations]. rewrite Hrun, bind_Returned.
  split; [done|]. split; [congruence|done].
Qed.

(** ** The properties of the specification *)

(** Slot facts about an array whose first slots are written out. *)
Ltac slot_fact :=
  repeat first
    [ progress (unfold skipped_at, hit_at, empty_at, live_at)
    | eexists
    | split
    | reflexivity
    | done
    | lia ].

Ltac slot_cases j :=
  match goal with
  | H : 0 <= j < 1 |- _ => assert (j = 0) as -> by lia
  | H : 0 <= j < 2 |- _ => assert (j = 0 \/ j = 1) as [-> | ->] by lia
  | H : 0 <= j < 3 |- _ =>
      assert (j = 0 \/ j = 1 \/ j = 2) as [-> | [-> | ->]] by lia
  end.

(** C1 (dispatch), as amended.  [processValue] reads the slots from
    index 0 upwards.  If the first slot that is empty or holds the code
    is slot [stop], it reads exactly the slots [0 .. stop]; when that
    slot holds the code it calls the slot's handler with
    [(code mod 256, value)], the code narrowed to the handler's
    [unsigned char] parameter, which is [(code, value)] whenever the
    code is at most 255, and returns what the handler returns; when
    that slot is empty it returns [false] and calls nothing.  For a
    table whose slots 0 and 1 hold [(1, hA)] and [(2, hB)] and whose
    slot 2 is empty: [processValue(1, v)] is [hA(1, v)],
    [processValue(2, v)] is [hB(2, v)], [processValue(3, v)] is
    [false], [validateAddress] is [true] on 1 and 2 and [false] on 3. *)
Theorem C1_processValue_dispatch :
  (forall t code value w stop,
      0 <= stop < UINT_MOD ->
      (forall j, 0 <= j < stop -> skipped_at (functionMapArray t) code j) ->
      (forall h, hit_at (functionMapArray t) code stop h ->
         processValue t code value w
         = (seqZ 0 (stop + 1), Returned (h (to_uchar code) value w)) /\
         (0 <= code < 256 -> to_uchar code = code)) /\
      (empty_at (functionMapArray t) stop ->
         processValue t code value w
         = (seqZ 0 (stop + 1), Returned (false, w))))
  /\
  (forall hA hB c size post value w,
      let t := mkFunctionMapper size
                 (mkFunctionMap 1 (Some hA) :: mkFunctionMap 2 (Some hB)
                  :: mkFunctionMap c None :: post) in
      (processValue t 1 value w).2 = Returned (hA 1 value w) /\
      (processValue t 2 value w).2 = Returned (hB 2 value w) /\
      (processValue t 3 value w).2 = Returned (false, w) /\
      (validateAddress t 1).2 = Returned true /\
      (validateAddress t 2).2 = Returned true /\
      (validateAddress t 3).2 = Returned false).
Proof.
  split.
  - intros t code value w stop Hstop Hskip. split.
    + intros h Hhit. split; [by apply processValue_hits|].
      intros Hc. unfold to_uchar. by apply Z.mod_small.
    + intros Hempty. by apply processValue_stops.
  - intros hA hB c size post value w t.
    assert (Hw : 2 < UINT_MOD) by width.
    split_and!.
    + by rewrite (processValue_hits t 1 value w 0 hA);
        [|lia|intros; lia|slot_fact].
    + by rewrite (processValue_hits t 2 value w 1 hB);
        [|lia|intros j Hj; slot_cases j; slot_fact|slot_fact].
    + by rewrite (processValue_stops t 3 value w 2);
        [|lia|intros j Hj; slot_cases j; slot_fact|slot_fact].
    + by rewrite (validateAddress_hits t 1 0 hA);
        [|lia|intros; lia|slot_fact].
    + by rewrite (validateAddress_hits t 2 1 hB);
        [|lia|intros j Hj; slot_cases j; slot_fact|slot_fact].
    + by rewrite (validateAddress_stops t 3 2);
        [|lia|intros j Hj; slot_cases j; slot_fact|slot_fact].
Qed.

(** C2 (capacity).  The constructor always returns.  Given an initial
    list with [k] live entries before its first sentinel entry and a
    requested capacity [size], the capacity it stores is
    [max size k]: [k] when [size < k] and [size] when [size >= k].
    Given no list, it is [size] when [size] is not zero and 10 when
    it is. *)
Theorem C2_effective_capacity :
  forall size,
    0 <= size < UINT_MOD ->
    (forall live stop rest,
        Forall (fun e => handler e <> None) live ->
        handler stop = None ->
        Z.of_nat (length live) < UINT_MOD ->
        let k := Z.of_nat (length live) in
        exists t,
          FunctionMapper_ctor (Some (live ++ stop :: rest)) size = Returned t /\
          arraySize t = Z.max size k /\
          (size < k -> arraySize t = k) /\
          (k <= size -> arraySize t = size)) /\
    (exists t,
        FunctionMapper_ctor None size = Returned t /\
        (size <> 0 -> arraySize t = size) /\
        (size = 0 -> arraySize t = 10)).
Proof.
  intros size Hsize. split.
  - intros live stop rest Hlive Hstop Hk k.
    eexists. split.
    + apply (ctor_spec _ live); [|done..].
      exists stop, rest. done.
    + simpl. fold k. case_decide; split_and!; lia.
  - eexists. split.
    + apply (ctor_spec None []); [done|done|simpl; width].
    + simpl. case_decide; split; lia.
Qed.

(** C3 (table full).  When every real slot of a table holds a
    handler, [addHandler] returns [false] and the table it leaves is
    the table it found.  A table built from an initial list of [k]
    live entries alone (no capacity argument, so [size] is 0) has
    capacity [k] and its [k] real slots are the [k] entries: it is
    full, and every later [addHandler] returns [false] and changes
    nothing. *)
Theorem C3_full_table_rejects :
  (forall t code h,
      (forall j, 0 <= j < arraySize t -> live_at (functionMapArray t) j) ->
      addHandler t code h = Returned (false, t)) /\
  (forall live stop rest,
      Forall (fun e => handler e <> None) live ->
      handler stop = None ->
      Z.of_nat (length live) + 1 < UINT_MOD ->
      exists t,
        FunctionMapper_ctor (Some (live ++ stop :: rest)) 0 = Returned t /\
        arraySize t = Z.of_nat (length live) /\
        functionMapArray t = live ++ [empty_slot] /\
        (forall code h, addHandler t code h = Returned (false, t)) /\
        (forall adds,
            add_sequence t adds = Returned (replicate (length adds) false, t))).
Proof.
  split; [apply addHandler_full|].
  intros live stop rest Hlive Hstop Hk.
  assert (Hsrc : live_prefix (Some (live ++ stop :: rest)) live)
    by (exists stop, rest; done).
  pose proof (ctor_layout _ live 0 Hsrc) as Hctor. simpl in Hctor.
  assert (Hcap : (if decide (0 < Z.of_nat (length live))
                  then Z.of_nat (length live) else 0) = Z.of_nat (length live))
    by (case_decide; lia).
  rewrite Hcap in Hctor.
  replace (Z.to_nat (Z.of_nat (length live) + 1) - length live)%nat
    with 1%nat in Hctor by lia.
  eexists. split; [apply Hctor; width|]. simpl.
  assert (Hfull : forall j, 0 <= j < Z.of_nat (length live) ->
                            live_at (live ++ [empty_slot]) j)
    by (intros; by apply Forall_live_at).
  split_and!; [done..| |].
  - intros. by apply addHandler_full.
  - intros. by apply add_sequence_full.
Qed.


(** C9 (empty list, no capacity).  Given an initial list whose first
    entry is already the sentinel, and [size] 0, the constructor
    stores capacity 0, not the default 10: the table has the
    terminator slot and nothing else, and every [addHandler] on it
    returns [false] and leaves it as it is. *)
Theorem C9_empty_list_zero_capacity :
  forall stop rest,
    handler stop = None ->
    exists t,
      FunctionMapper_ctor (Some (stop :: rest)) 0 = Returned t /\
      arraySize t = 0 /\
      functionMapArray t = [empty_slot] /\
      (forall code h, addHandler t code h = Returned (false, t)) /\
      (forall adds,
          add_sequence t adds = Returned (replicate (length adds) false, t)).
Proof.
  intros stop rest Hstop.
  assert (Hsrc : live_prefix (Some (stop :: rest)) [])
    by (exists stop, rest; done).
  eexists. split_and!.
  - rewrite (ctor_layout _ [] 0 Hsrc); [done|width|simpl; width].
  - done.
  - done.
  - intros. apply addHandler_full. simpl. intros; lia.
  - intros. apply add_sequence_full. simpl. intros; lia.
Qed.

(** C5 (early stop).  [validateAddress] and [processValue] stop at
    the first empty slot, whatever the slots above it hold.  In a
    table built with capacity 5 from two initial entries, one
    [addHandler(c, h)] with [c] different from both initial codes
    returns [true] and stores the entry in slot 4, above the empty
    slot 2; after it [validateAddress(c)] and [processValue(c, v)]
    read slots 0, 1 and 2 and return [false]. *)
Theorem C5_scan_stops_at_first_empty :
  (forall t code value w stop,
      0 <= stop < UINT_MOD ->
      (forall j, 0 <= j < stop -> skipped_at (functionMapArray t) code j) ->
      empty_at (functionMapArray t) stop ->
      validateAddress t code = (seqZ 0 (stop + 1), Returned false) /\
      processValue t code value w = (seqZ 0 (stop + 1), Returned (false, w))) /\
  (forall e1 e2 stop rest c h value w,
      handler e1 <> None -> handler e2 <> None -> handler stop = None ->
      functionCode e1 <> c -> functionCode e2 <> c ->
      exists t0 t1,
        FunctionMapper_ctor (Some (e1 :: e2 :: stop :: rest)) 5 = Returned t0 /\
        addHandler t0 c h = Returned (true, t1) /\
        slot_read (functionMapArray t1) 2 = Some empty_slot /\
        slot_read (functionMapArray t1) 4 = Some (mkFunctionMap c h) /\
        validateAddress t1 c = ([0; 1; 2], Returned false) /\
        processValue t1 c value w = ([0; 1; 2], Returned (false, w))).
Proof.
  split.
  - intros t code value w stop Hstop Hskip Hempty. split.
    + by apply validateAddress_stops.
    + by apply processValue_stops.
  - intros e1 e2 stop rest c h value w H1 H2 Hstop Hc1 Hc2.
    destruct (handler e1) as [h1|] eqn:Hh1; [|done].
    destruct (handler e2) as [h2|] eqn:Hh2; [|done].
    assert (Hw : 2 < UINT_MOD) by width.
    eexists. eexists.
    split; [apply ctor_five_two; congruence|].
    split; [apply add_five_two|].
    split; [done|]. split; [done|].
    split.
    + apply (validateAddress_stops _ c 2); simpl.
      * lia.
      * intros j Hj. slot_cases j; [by exists e1, h1|by exists e2, h2].
      * by exists empty_slot.
    + apply (processValue_stops _ c value w 2); simpl.
      * lia.
      * intros j Hj. slot_cases j; [by exists e1, h1|by exists e2, h2].
      * by exists empty_slot.
Qed.

(** C7 (duplicates).  When two live slots [first < later], both below
    the first empty slot, hold the same code and no slot below [first]
    holds it, [validateAddress] returns [true] on reaching [first]
    and [processValue] calls the handler of [first], once, and
    returns its result: neither reads slot [later], so the handler
    stored there is not called. *)
Theorem C7_lowest_index_wins :
  forall t code value w first later h1 h2,
    0 <= first < later -> later < UINT_MOD ->
    (forall j, 0 <= j < later -> live_at (functionMapArray t) j) ->
    hit_at (functionMapArray t) code first h1 ->
    hit_at (functionMapArray t) code later h2 ->
    (forall j h, 0 <= j < first -> ~ hit_at (functionMapArray t) code j h) ->
    validateAddress t code = (seqZ 0 (first + 1), Returned true) /\
    processValue t code value w
    = (seqZ 0 (first + 1), Returned (h1 (to_uchar code) value w)) /\
    later ∉ seqZ 0 (first + 1).
Proof.
  intros t code value w first later h1 h2 Hfl Hlater Hlive Hfirst _ Hlowest.
  assert (Hskip : forall j, 0 <= j < first ->
                            skipped_at (functionMapArray t) code j).
  { intros j Hj. destruct (Hlive j) as (e & h & He & Hh); [lia|].
    exists e, h. split_and!; [done..|].
    intros Hc. apply (Hlowest j h Hj). by exists e. }
  split_and!.
  - apply (validateAddress_hits _ _ _ h1); [lia|done..].
  - apply processValue_hits; [lia|done..].
  - rewrite elem_of_seqZ. lia.
Qed.

(** C10 (narrowing).  The scan compares the code at the width of
    [unsigned int], but the handler's first parameter is an
    [unsigned char].  When a live slot holds a code [n] above 255,
    [processValue(n, v)] calls the handler of the lowest slot that
    holds [n] (that slot itself when no lower slot holds [n]) with
    [n mod 256], which is not [n]; and the code [n mod 256] does not
    match that slot. *)
Theorem C10_code_narrowed_for_handler :
  forall t n value w i h,
    0 <= i < UINT_MOD ->
    (forall j, 0 <= j < i -> live_at (functionMapArray t) j) ->
    hit_at (functionMapArray t) n i h ->
    255 < n ->
    exists first h1,
      0 <= first <= i /\
      hit_at (functionMapArray t) n first h1 /\
      (forall j, 0 <= j < first -> skipped_at (functionMapArray t) n j) /\
      processValue t n value w
      = (seqZ 0 (first + 1), Returned (h1 (n mod 256) value w)) /\
      n mod 256 <> n /\
      ~ hit_at (functionMapArray t) (n mod 256) i h /\
      ((forall j, 0 <= j < i -> skipped_at (functionMapArray t) n j) ->
       first = i /\ h1 = h).
Proof.
  intros t n value w i h Hi Hlive Hhit Hn.
  assert (Hmod : n mod 256 <> n).
  { pose proof (Z.mod_pos_bound n 256). lia. }
  assert (Hin : Z.of_nat (Z.to_nat (i + 1))
                <= Z.of_nat (length (functionMapArray t))).
  { destruct Hhit as (e & He%slot_read_in & _). lia. }
  destruct (scan_reach (functionMapArray t) n (Z.to_nat (i + 1)) Hin)
    as [Hskip|(first & Hfirst & Hskip & [Hempty|[h1 Hh1]])].
  - exfalso. apply (skipped_not_hit (functionMapArray t) n i h); [|done].
    apply Hskip. lia.
  - exfalso. apply (live_not_empty (functionMapArray t) first); [|done].
    destruct (decide (first = i)) as [->|]; [by eapply hit_live|].
    apply Hlive. lia.
  - exists first, h1. split_and!.
    + lia.
    + lia.
    + done.
    + done.
    + by apply (processValue_hits t n value w first h1); [lia|..].
    + done.
    + intros (e & He & _ & Hc). destruct Hhit as (e' & He' & _ & Hc').
      congruence.
    + intros Hall.
      destruct (decide (first = i)) as [->|Hne].
      * split; [done|].
        destruct Hh1 as (e & He & Hh & _). destruct Hhit as (e' & He' & Hh' & _).
        congruence.
      * exfalso.
        apply (skipped_not_hit (functionMapArray t) n first h1); [|done].
        apply Hall. lia.
Qed.

(** C6 (termination safety).  Build an empty table (no initial list,
    or a list whose first entry is the sentinel); let [c] be the
    capacity the constructor stores, at most [INT_MAX].  Then [c]
    calls of [addHandler] with handlers all return [true] and fill the
    [c] real slots.  After them [validateAddress] and [processValue]
    with a code that none of the calls stored terminate and return
    [false]; they read the slots [0 .. c] of the [c + 1] allocated and
    no other, and no handler is called. *)
Theorem C6_scan_of_full_table_terminates :
  forall src size adds code value w,
    live_prefix src [] ->
    0 <= size < UINT_MOD ->
    let c := capacity_for src size 0 in
    c <= INT_MAX ->
    Z.of_nat (length adds) = c ->
    Forall (fun p => p.2 <> None) adds ->
    Forall (fun p => p.1 <> code) adds ->
    exists t0 t,
      FunctionMapper_ctor src size = Returned t0 /\
      arraySize t0 = c /\
      add_sequence t0 adds = Returned (replicate (length adds) true, t) /\
      arraySize t = c /\
      Z.of_nat (length (functionMapArray t)) = c + 1 /\
      (forall j, 0 <= j < c -> live_at (functionMapArray t) j) /\
      validateAddress t code = (seqZ 0 (c + 1), Returned false) /\
      processValue t code value w = (seqZ 0 (c + 1), Returned (false, w)) /\
      Forall (fun i => 0 <= i <= c) (seqZ 0 (c + 1)).
Proof.
  intros src size adds code value w Hsrc Hsize c Hc Hlen Hh Hcode.
  pose proof (ctor_layout src [] size Hsrc Hsize) as Hctor.
  cbn [length app] in Hctor. change (Z.of_nat 0) with 0 in Hctor.
  fold c in Hctor.
  replace (Z.to_nat (c + 1) - 0)%nat with (S (length adds)) in Hctor by lia.
  rewrite replicate_S_end in Hctor.
  set (l := reverse ((fun p => mkFunctionMap p.1 p.2) <$> adds)).
  assert (Hl : Z.of_nat (length l) = c)
    by (subst l; by rewrite length_reverse, length_fmap).
  assert (Hskip : forall j, 0 <= j < c ->
                            skipped_at (l ++ [] ++ [empty_slot]) code j).
  { intros j Hj. apply Forall_skipped_at; [|lia].
    subst l. apply Forall_reverse, Forall_fmap.
    rewrite Forall_lookup in Hh, Hcode. apply Forall_lookup.
    intros i p Hp. simpl. split; [by eapply Hh|by eapply Hcode]. }
  assert (Hterm : empty_at (l ++ [] ++ [empty_slot]) c).
  { exists empty_slot. rewrite <- Hl.
    split; [apply (slot_read_middle l empty_slot [])|done]. }
  exists (mkFunctionMapper c (replicate (length adds) empty_slot ++ [] ++ [empty_slot])).
  exists (mkFunctionMapper c (l ++ [] ++ [empty_slot])).
  split; [apply Hctor; width|]. split; [done|].
  split; [apply add_sequence_fills; [done|done|simpl; lia|lia]|].
  split; [done|]. simpl.
  split; [rewrite length_app; simpl; lia|].
  split; [intros j Hj; eapply skipped_live; by apply Hskip|].
  split; [apply validateAddress_stops; [width|done..]|].
  split; [apply processValue_stops; [width|done..]|].
  apply Forall_seqZ. intros. lia.
Qed.

(** X13.  Whatever the constructor is given, as long as the capacity
    [c] it stores is at most [INT_MAX], slot [c] of the new table
    holds code 0 and the sentinel handler.  After any sequence of
    [addHandler], [validateAddress] and [processValue] calls, every
    one of which returns, the table still has capacity [c] and
    [c + 1] slots, and slot [c] still holds code 0 and the sentinel
    handler. *)
Theorem X13_terminator_is_permanent :
  forall src live size,
    live_prefix src live ->
    0 <= size < UINT_MOD ->
    let c := capacity_for src size (Z.of_nat (length live)) in
    c <= INT_MAX ->
    exists t0,
      FunctionMapper_ctor src size = Returned t0 /\
      arraySize t0 = c /\
      Z.of_nat (length (functionMapArray t0)) = c + 1 /\
      slot_read (functionMapArray t0) c = Some (mkFunctionMap 0 None) /\
      forall ops w,
        exists t w',
          run_operations (t0, w) ops = Returned (t, w') /\
          arraySize t = c /\
          Z.of_nat (length (functionMapArray t)) = c + 1 /\
          slot_read (functionMapArray t) c = Some (mkFunctionMap 0 None).
Proof.
  intros src live size Hsrc Hsize c Hc.
  destruct (table_ok_ctor src live size Hsrc Hsize Hc)
    as (t0 & Hctor & Hcap & Hok).
  fold c in Hcap. exists t0.
  pose proof Hok as (_ & Hlen & Hterm). rewrite Hcap in Hlen, Hterm.
  split_and!; [done..|].
  intros ops w.
  destruct (table_ok_run_operations ops t0 w Hok)
    as (t & w' & Hrun & Hsize' & (_ & Hlen' & Hterm')).
  exists t, w'. rewrite Hsize', Hcap in Hlen', Hterm'.
  split_and!; [done|congruence|done..].
Qed.

(** ** Further properties of the four member functions *)

(** *** The two look-ups side by side *)

Lemma scans_agree_loop a code value w (fuel : nat) : forall i,
  (processValue_loop fuel a code value w i).1
  = (validateAddress_loop fuel a code i).1 /\
  match (validateAddress_loop fuel a code i).2 with
  | Returned true =>
      exists j h before,
        hit_at a code j h /\
        (validateAddress_loop fuel a code i).1 = before ++ [j] /\
        (processValue_loop fuel a code value w i).2
        = Returned (h (to_uchar code) value w)
  | Returned false =>
      (processValue_loop fuel a code value w i).2 = Returned (false, w)
  | OutOfBounds =>
      (processValue_loop fuel a code value w i).2 = OutOfBounds
  | OutOfFuel =>
      (processValue_loop fuel a code value w i).2 = OutOfFuel
  end.
Proof.
  induction fuel as [|fuel IH]; intros i; [done|].
  cbn [validateAddress_loop processValue_loop].
  destruct (slot_read a i) as [e|] eqn:He; [|done].
  destruct (handler e) as [h|] eqn:Hh; [|done].
  case_decide as Hc.
  - split; [done|]. exists i, h, []. split; [by exists e|done].
  - destruct (IH (to_uint (i + 1))) as [Htr Hres].
    unfold reading. cbn [fst snd]. split; [by rewrite Htr|].
    destruct (validateAddress_loop fuel a code (to_uint (i + 1))) as [tr [[|]| |]];
      cbn [fst snd] in *; [|done..].
    destruct Hres as (j & h' & before & Hhit & Hlast & Hres).
    exists j, h', (i :: before). split; [done|]. split; [|done].
    by rewrite Hlast.
Qed.

(** X1.  [validateAddress] and [processValue] read the same slots.
    When [validateAddress] answers [true], the last slot read holds
    the code and [processValue] returns what the handler of that slot
    returns; when it answers
    [false], [processValue] returns [false] and leaves the world as it
    was; when one leaves the array, so does the other. *)
Theorem X1_validate_then_process :
  forall t code value w,
    (processValue t code value w).1 = (validateAddress t code).1 /\
    match (validateAddress t code).2 with
    | Returned true =>
        exists j h before,
          hit_at (functionMapArray t) code j h /\
          (validateAddress t code).1 = before ++ [j] /\
          (processValue t code value w).2
          = Returned (h (to_uchar code) value w)
    | Returned false =>
        (processValue t code value w).2 = Returned (false, w)
    | OutOfBounds => (processValue t code value w).2 = OutOfBounds
    | OutOfFuel => (processValue t code value w).2 = OutOfFuel
    end.
Proof. intros. apply scans_agree_loop. Qed.

(** *** A look-up depends on the slots it reads and on no other *)

Lemma validateAddress_loop_local a a' code (fuel : nat) : forall i,
  (forall k, k ∈ (validateAddress_loop fuel a code i).1 ->
             slot_read a' k = slot_read a k) ->
  validateAddress_loop fuel a' code i = validateAddress_loop fuel a code i.
Proof.
  induction fuel as [|fuel IH]; intros i Hsame; [done|].
  cbn [validateAddress_loop] in *.
  assert (Hi : slot_read a' i = slot_read a i).
  { apply Hsame. destruct (slot_read a i) as [e|]; [|by left].
    destruct (handler e); [|by left]. case_decide; by left. }
  rewrite Hi. destruct (slot_read a i) as [e|]; [|done].
  destruct (handler e); [|done]. case_decide; [done|].
  rewrite IH; [done|]. intros k Hk. apply Hsame. by right.
Qed.

Lemma processValue_loop_local a a' code value w (fuel : nat) : forall i,
  (forall k, k ∈ (processValue_loop fuel a code value w i).1 ->
             slot_read a' k = slot_read a k) ->
  processValue_loop fuel a' code value w i
  = processValue_loop fuel a code value w i.
Proof.
  induction fuel as [|fuel IH]; intros i Hsame; [done|].
  cbn [processValue_loop] in *.
  assert (Hi : slot_read a' i = slot_read a i).
  { apply Hsame. destruct (slot_read a i) as [e|]; [|by left].
    destruct (handler e); [|by left]. case_decide; by left. }
  rewrite Hi. destruct (slot_read a i) as [e|]; [|done].
  destruct (handler e); [|done]. case_decide; [done|].
  rewrite IH; [done|]. intros k Hk. apply Hsame. by right.
Qed.

(** A look-up that answers [true] has read live slots only. *)
Lemma validateAddress_loop_true_live a code (fuel : nat) : forall i,
  (validateAddress_loop fuel a code i).2 = Returned true ->
  forall k, k ∈ (validateAddress_loop fuel a code i).1 -> live_at a k.
Proof.
  induction fuel as [|fuel IH]; intros i Hres k Hk; [done|].
  cbn [validateAddress_loop] in *.
  destruct (slot_read a i) as [e|] eqn:He; [|done].
  destruct (handler e) as [h|] eqn:Hh; [|done].
  assert (Hlive : live_at a i) by by exists e, h.
  case_decide.
  - apply list_elem_of_singleton in Hk as ->. done.
  - unfold reading in *. cbn [fst snd] in *.
    apply elem_of_cons in Hk as [->|Hk]; [done|]. by eapply IH.
Qed.


Lemma validateAddress_local t t' code :
  length (functionMapArray t') = length (functionMapArray t) ->
  (forall k, k ∈ (validateAddress t code).1 ->
             slot_read (functionMapArray t') k = slot_read (functionMapArray t) k) ->
  validateAddress t' code = validateAddress t code.
Proof.
  intros Hlen Hsame. unfold validateAddress in *. rewrite Hlen.
  by apply validateAddress_loop_local.
Qed.

Lemma processValue_local t t' code value w :
  length (functionMapArray t') = length (functionMapArray t) ->
  (forall k, k ∈ (validateAddress t code).1 ->
             slot_read (functionMapArray t') k = slot_read (functionMapArray t) k) ->
  processValue t' code value w = processValue t code value w.
Proof.
  intros Hlen Hsame. unfold processValue, validateAddress in *. rewrite Hlen.
  apply processValue_loop_local. intros k Hk. apply Hsame.
  by rewrite <- (proj1 (scans_agree_loop _ code value w _ 0)).
Qed.

(** *** What [addHandler] can do to a table *)

Lemma find_loop_inv a (n : nat) : forall i s s',
  for_upto n i (find_body a) s = Returned s' ->
  s' = s \/
  exists j, i <= j < i + Z.of_nat n /\ empty_at a j /\ s' = to_int j.
Proof.
  induction n as [|n IH]; intros i s s' Hrun.
  - left. by injection Hrun.
  - rewrite for_upto_S in Hrun.
    destruct (slot_read a i) as [e|] eqn:He;
      [|by unfold find_body in Hrun; rewrite He in Hrun].
    destruct (handler e) as [h|] eqn:Hh.
    + rewrite (find_body_live _ _ _ _ _ He Hh), bind_Returned in Hrun.
      destruct (IH _ _ _ Hrun) as [->|(j & Hj & Hempty & ->)]; [by left|].
      right. exists j. split; [lia|done].
    + rewrite (find_body_empty _ _ _ _ He Hh), bind_Returned in Hrun.
      destruct (IH _ _ _ Hrun) as [->|(j & Hj & Hempty & ->)].
      * right. exists i. split; [lia|]. split; [by exists e|done].
      * right. exists j. split; [lia|done].
Qed.

(** Whenever [addHandler] returns it has either left the table alone
    or overwritten one empty real slot. *)
Lemma addHandler_inv t code h b t' :
  arraySize t <= UINT_MOD ->
  addHandler t code h = Returned (b, t') ->
  (b = false /\ t' = t) \/
  (b = true /\
   exists j,
     0 <= j < arraySize t /\ j < Z.of_nat (length (functionMapArray t)) /\
     empty_at (functionMapArray t) j /\
     t' = mkFunctionMapper (arraySize t)
            (<[Z.to_nat j := mkFunctionMap code h]> (functionMapArray t))).
Proof.
  intros Hsize Hadd. unfold addHandler in Hadd.
  destruct (for_upto _ _ _ _) as [slot| |] eqn:Hfind; [|done..].
  rewrite bind_Returned in Hadd. case_decide as Hslot.
  - unfold slot_write in Hadd. case_decide as Hin; [|done].
    rewrite bind_Returned in Hadd. injection Hadd as <- <-. right.
    split; [done|].
    destruct (find_loop_inv _ _ _ _ _ Hfind) as [->|(j & Hj & Hempty & ->)];
      [done|].
    assert (Hto : to_int j = j).
    { unfold to_int in *. rewrite Z.mod_small in * by lia.
      case_decide; lia. }
    rewrite Hto in *. exists j. split; [lia|]. split; [lia|done].
  - injection Hadd as <- <-. by left.
Qed.

(** X7.  However [addHandler] returns, the capacity and the number of
    slots are what they were and every slot that held a handler holds
    the same code and handler still: a [false] leaves the whole table
    as it was, a [true] has overwritten one real slot that was empty. *)
Theorem X7_addHandler_keeps_live_slots :
  forall t code h b t',
    arraySize t <= UINT_MOD ->
    addHandler t code h = Returned (b, t') ->
    arraySize t' = arraySize t /\
    length (functionMapArray t') = length (functionMapArray t) /\
    (forall i, live_at (functionMapArray t) i ->
       slot_read (functionMapArray t') i = slot_read (functionMapArray t) i) /\
    (b = false -> t' = t) /\
    (b = true ->
     exists j,
       0 <= j < arraySize t /\ empty_at (functionMapArray t) j /\
       slot_read (functionMapArray t') j = Some (mkFunctionMap code h) /\
       forall i, i <> j ->
         slot_read (functionMapArray t') i = slot_read (functionMapArray t) i).
Proof.
  intros t code h b t' Hsize Hadd.
  destruct (addHandler_inv t code h b t' Hsize Hadd)
    as [[-> ->]|(-> & j & Hj & Hlen & Hempty & ->)].
  - split_and!; [done..|]. intros; done.
  - simpl. split; [done|]. split; [by rewrite length_insert|].
    split; [|split; [done|]].
    + intros i Hlive. apply slot_read_insert_ne; [lia|].
      intros ->. by eapply live_not_empty.
    + intros _. exists j. split; [done|]. split; [done|].
      split; [apply slot_read_insert_eq; lia|].
      intros i Hi. apply slot_read_insert_ne; [lia|done].
Qed.



(** X10.  A code that [validateAddress] finds stays found: after any
    [addHandler] that returns, [validateAddress] and [processValue]
    for that code read the same slots and give the same results as
    before. *)
Theorem X10_found_code_stays_found :
  forall t code c h b t' value w,
    arraySize t <= UINT_MOD ->
    addHandler t c h = Returned (b, t') ->
    (validateAddress t code).2 = Returned true ->
    validateAddress t' code = validateAddress t code /\
    processValue t' code value w = processValue t code value w.
Proof.
  intros t code c h b t' value w Hsize Hadd Hfound.
  assert (Hlen : length (functionMapArray t') = length (functionMapArray t)).
  { destruct (addHandler_inv t c h b t' Hsize Hadd)
      as [[-> ->]|(-> & j & Hj & Hlen & Hempty & ->)]; [done|].
    simpl. by rewrite length_insert. }
  assert (Hsame : forall k, k ∈ (validateAddress t code).1 ->
    slot_read (functionMapArray t') k = slot_read (functionMapArray t) k).
  { intros k Hk.
    pose proof (validateAddress_loop_true_live _ _ _ _ Hfound k Hk) as Hlive.
    destruct (addHandler_inv t c h b t' Hsize Hadd)
      as [[-> ->]|(-> & j & Hj & Hlenj & Hempty & ->)]; [done|].
    simpl. apply slot_read_insert_ne; [lia|].
    intros ->. by eapply live_not_empty. }
  split.
  - by apply validateAddress_local.
  - by apply processValue_local.
Qed.

(** *** What the constructor builds *)

(** X3.  The table the constructor builds is fixed by the live entries
    of the list and by [size]: with a list, capacity [max size k], the
    [k] live entries in slots [0 .. k-1] and [{ 0, 0 }] in every slot
    from [k] to the capacity; the code of the sentinel entry, what
    follows it in the list and what the fresh array held do not
    show.  Without a list every slot is [{ 0, 0 }]. *)
Theorem X3_ctor_layout :
  (forall live stop rest size,
      Forall (fun e => handler e <> None) live ->
      handler stop = None ->
      0 <= size < UINT_MOD ->
      let k := Z.of_nat (length live) in
      Z.max size k + 1 < UINT_MOD ->
      FunctionMapper_ctor (Some (live ++ stop :: rest)) size
      = Returned (mkFunctionMapper (Z.max size k)
          (live ++ replicate (Z.to_nat (Z.max size k + 1 - k)) empty_slot))) /\
  (forall size,
      0 < size -> size + 1 < UINT_MOD ->
      FunctionMapper_ctor None size
      = Returned (mkFunctionMapper size
          (replicate (Z.to_nat (size + 1)) empty_slot))) /\
  FunctionMapper_ctor None 0
  = Returned (mkFunctionMapper 10 (replicate 11 empty_slot)).
Proof.
  split_and!.
  - intros live stop rest size Hlive Hstop Hsize k Hmax.
    assert (Hsrc : live_prefix (Some (live ++ stop :: rest)) live)
      by (exists stop, rest; done).
    pose proof (ctor_layout _ live size Hsrc Hsize) as Hctor.
    cbn [capacity_for] in Hctor. subst k.
    assert (Hcap : (if decide (size < Z.of_nat (length live))
                    then Z.of_nat (length live) else size)
                   = Z.max size (Z.of_nat (length live)))
      by (case_decide; lia).
    rewrite Hcap in Hctor. rewrite Hctor by lia.
    by rewrite Z2Nat.inj_sub, Nat2Z.id by lia.
  - intros size Hpos Hsize.
    pose proof (ctor_layout None [] size eq_refl ltac:(lia)) as Hctor.
    cbn [capacity_for length app] in Hctor.
    rewrite decide_False in Hctor by lia.
    rewrite Hctor by lia. by rewrite Nat.sub_0_r.
  - pose proof (ctor_layout None [] 0 eq_refl ltac:(width)) as Hctor.
    cbn [capacity_for length app] in Hctor.
    rewrite decide_True in Hctor by done.
    rewrite Hctor by width. done.
Qed.

(** A table whose live entries are followed by an empty slot answers
    [validateAddress] by membership among the codes of the live
    entries. *)
Lemma validateAddress_prefix c live e post code :
  Forall (fun e => handler e <> None) live ->
  handler e = None ->
  Z.of_nat (length live) < UINT_MOD ->
  (validateAddress (mkFunctionMapper c (live ++ e :: post)) code).2
  = Returned (bool_decide (code ∈ functionCode <$> live)).
Proof.
  intros Hlive He Hlen.
  destruct (scan_reach (live ++ e :: post) code (length live))
    as [Hskip|(stop & Hstop & Hskip & Hend)].
  - rewrite length_app. lia.
  - rewrite (validateAddress_stops _ code (Z.of_nat (length live)));
      [|lia|done|by (exists e; simpl; rewrite slot_read_middle)].
    cbn [snd]. rewrite bool_decide_eq_false_2; [done|].
    intros (x & Hcode & Hx)%list_elem_of_fmap.
    apply list_elem_of_lookup in Hx as [i Hi].
    destruct (Hskip (Z.of_nat i)) as (x' & h & Hx' & _ & Hne).
    { apply lookup_lt_Some in Hi. lia. }
    rewrite slot_read_of_nat, lookup_app_l in Hx'
      by by eapply lookup_lt_Some.
    congruence.
  - destruct Hend as [Hempty|[h Hhit]].
    { exfalso. apply (live_not_empty (live ++ e :: post) stop); [|done].
      by apply Forall_live_at. }
    rewrite (validateAddress_hits _ code stop h); [|lia|done|done].
    cbn [snd]. rewrite bool_decide_eq_true_2; [done|].
    destruct Hhit as (x & Hx & _ & Hcode).
    rewrite slot_read_app_l in Hx by lia.
    unfold slot_read in Hx. case_decide; [|done].
    apply list_elem_of_fmap. exists x. split; [done|].
    by eapply list_elem_of_lookup_2.
Qed.

(** X4.  Construction, then look-up.  When the capacity the
    constructor stores is below [UINT_MAX], so that the slot count
    [capacity + 1] does not wrap: on the table the constructor builds,
    [validateAddress] answers [true] for exactly the codes of the live
    entries of the initial list, [false] for every other code;
    [processValue] with the code of a live entry calls the handler of
    the first entry of the list that has this code. *)
Theorem X4_ctor_then_look_up :
  forall src live size,
    live_prefix src live ->
    0 <= size < UINT_MOD ->
    capacity_for src size (Z.of_nat (length live)) + 1 < UINT_MOD ->
    exists t,
      FunctionMapper_ctor src size = Returned t /\
      (forall code,
          (validateAddress t code).2
          = Returned (bool_decide (code ∈ functionCode <$> live))) /\
      (forall pre e post h value w,
          live = pre ++ e :: post ->
          handler e = Some h ->
          functionCode e ∉ functionCode <$> pre ->
          processValue t (functionCode e) value w
          = (seqZ 0 (Z.of_nat (length pre) + 1),
             Returned (h (to_uchar (functionCode e)) value w))).
Proof.
  intros src live size Hsrc Hsize Hcap.
  set (c := capacity_for src size (Z.of_nat (length live))) in *.
  assert (Hk : Z.of_nat (length live) <= c).
  { subst c. unfold capacity_for. destruct src; simpl in Hsrc.
    - case_decide; lia.
    - subst live. simpl. case_decide; lia. }
  assert (Hlive : Forall (fun e => handler e <> None) live).
  { destruct src; simpl in Hsrc; [by destruct Hsrc as (? & ? & _ & _ & ?)|].
    subst live. constructor. }
  eexists. split; [by apply (ctor_layout src live size Hsrc Hsize)|].
  fold c.
  replace (Z.to_nat (c + 1) - length live)%nat
    with (S (Z.to_nat c - length live)) by lia.
  rewrite replicate_S. split.
  - intros code. apply validateAddress_prefix; [done|done|lia].
  - intros pre e post h value w -> He Hfresh.
    assert (Hpre : Z.of_nat (length pre) < Z.of_nat (length (pre ++ e :: post)))
      by (rewrite length_app; simpl; lia).
    apply processValue_hits; simpl.
    + lia.
    + intros j Hj. rewrite <- !app_assoc.
      apply Forall_skipped_at; [|lia].
      apply Forall_app in Hlive as [Hlpre _].
      apply Forall_lookup. intros i x Hx.
      split; [exact (Forall_lookup_1 _ _ _ _ Hlpre Hx)|].
      intros Hcode. apply Hfresh. apply list_elem_of_fmap.
      exists x. split; [done|]. by eapply list_elem_of_lookup_2.
    + exists e. rewrite <- !app_assoc. simpl.
      by rewrite slot_read_middle.
Qed.

(** X5.  An initial list without a sentinel entry: the measuring loop
    of the constructor reads past the end of the list. *)
Theorem X5_ctor_unterminated_list :
  forall l size,
    Forall (fun e => handler e <> None) l ->
    Z.of_nat (length l) < UINT_MOD ->
    FunctionMapper_ctor (Some l) size = OutOfBounds.
Proof.
  intros l size Hlive Hlen. unfold FunctionMapper_ctor.
  replace (S (length l)) with (length l + 1)%nat by lia.
  rewrite measure_loop_skip; [|lia|lia|].
  - cbn [measure_loop]. rewrite Z.add_0_l, slot_read_of_nat.
    by rewrite lookup_ge_None_2 by lia.
  - intros j Hj. rewrite <- (app_nil_r l). apply Forall_live_at; [done|lia].
Qed.

(** X6.  The largest [size]: the slot count [arraySize + 1] wraps to
    zero.  The constructor returns a table that records capacity
    [UINT_MAX] and has no slot at all, not even the terminator; on it
    both look-ups and [addHandler] leave the array at slot 0. *)
Theorem X6_slot_count_wraps :
  forall src live,
    live_prefix src live ->
    Z.of_nat (length live) < UINT_MOD ->
    exists t,
      FunctionMapper_ctor src (UINT_MOD - 1) = Returned t /\
      arraySize t = UINT_MOD - 1 /\
      functionMapArray t = [] /\
      (forall code, validateAddress t code = ([0], OutOfBounds)) /\
      (forall code value w, processValue t code value w = ([0], OutOfBounds)) /\
      (forall code h, addHandler t code h = OutOfBounds).
Proof.
  intros src live Hsrc Hlen.
  assert (Hbig : 65536 <= UINT_MOD) by width.
  assert (Hcap : capacity_for src (UINT_MOD - 1) (Z.of_nat (length live))
                 = UINT_MOD - 1).
  { unfold capacity_for. destruct src; case_decide; lia. }
  eexists. split.
  { rewrite (ctor_spec src live) by (first [done | lia]).
    rewrite Hcap. unfold to_uint.
    replace (UINT_MOD - 1 + 1) with UINT_MOD by lia.
    rewrite Z.mod_same by lia. reflexivity. }
  simpl. split_and!; [done..|].
  intros code h. unfold addHandler. simpl.
  replace (Z.to_nat (UINT_MOD - 1)) with (S (Z.to_nat (UINT_MOD - 2))) by lia.
  by rewrite for_upto_S.
Qed.

(** X11.  The last empty real slot has an index above [INT_MAX]: the
    conversion to [int slot] makes it negative, it is not [-1], and
    the write [functionMapArray[slot]] is outside the array. *)
Theorem X11_slot_index_beyond_int :
  forall t code h j,
    arraySize t < UINT_MOD ->
    arraySize t <= Z.of_nat (length (functionMapArray t)) ->
    INT_MAX < j < arraySize t ->
    empty_at (functionMapArray t) j ->
    (forall k, j < k < arraySize t -> live_at (functionMapArray t) k) ->
    addHandler t code h = OutOfBounds.
Proof.
  intros t code h j Hsize Hlen Hj Hempty Hlive.
  pose proof INT_MAX_min. unfold addHandler.
  rewrite (find_loop_last _ _ j) by (first [lia | done | intros; apply Hlive; lia]).
  assert (Hto : to_int j = j - UINT_MOD).
  { unfold to_int. rewrite Z.mod_small by lia. by rewrite decide_False by lia. }
  rewrite Hto, bind_Returned, decide_True by lia.
  unfold slot_write. by rewrite decide_False by lia.
Qed.

(** *** Filling an empty table *)

(** [addHandler] called for each element of [adds] on a table with [k]
    empty real slots to spare: the entries fill the real slots from
    the highest index downwards. *)
Lemma add_sequence_fills_from adds : forall (k : nat) filled post c,
  Forall (fun p => p.2 <> None) adds ->
  Forall (fun e => handler e <> None) filled ->
  c = Z.of_nat k + Z.of_nat (length adds) + Z.of_nat (length filled) ->
  c - 1 <= INT_MAX ->
  add_sequence
    (mkFunctionMapper c
       (replicate (k + length adds) empty_slot ++ filled ++ post))
    adds
  = Returned (replicate (length adds) true,
      mkFunctionMapper c
        (replicate k empty_slot
         ++ reverse ((fun p => mkFunctionMap p.1 p.2) <$> adds)
         ++ filled ++ post)).
Proof.
  induction adds as [|[code h] adds IH];
    intros k filled post c Hadds Hfilled Hc Hint.
  - simpl. by rewrite Nat.add_0_r.
  - apply Forall_cons_1 in Hadds as [Hh Hadds]. simpl in Hh, Hc.
    cbn [add_sequence length].
    replace (k + S (length adds))%nat with (S (k + length adds)) by lia.
    rewrite replicate_S_end, <- app_assoc.
    change ([empty_slot] ++ filled ++ post) with (empty_slot :: filled ++ post).
    rewrite addHandler_split;
      [|done|done|rewrite length_replicate; lia|rewrite length_replicate; lia].
    rewrite bind_Returned. cbn beta iota.
    change (mkFunctionMap code h :: filled ++ post)
      with ((mkFunctionMap code h :: filled) ++ post).
    rewrite IH; [|done|by constructor|simpl; lia|lia].
    rewrite bind_Returned. cbn beta iota. unfold mret, outcome_ret.
    rewrite fmap_cons, reverse_cons, <- !app_assoc. done.
Qed.

(** X2.  On a table built empty, nothing that [addHandler] stores can
    be looked up until the table is full.  After fewer calls than the
    capacity (all with handlers, all returning [true]) slot 0 is still
    empty: [validateAddress] and [processValue] read slot 0 and
    return [false] for every code, the stored ones included. *)
Theorem X2_nothing_found_until_full :
  forall src size adds,
    live_prefix src [] ->
    0 <= size < UINT_MOD ->
    let c := capacity_for src size 0 in
    c <= INT_MAX ->
    Z.of_nat (length adds) < c ->
    Forall (fun p => p.2 <> None) adds ->
    exists t0 t,
      FunctionMapper_ctor src size = Returned t0 /\
      add_sequence t0 adds = Returned (replicate (length adds) true, t) /\
      forall code value w,
        validateAddress t code = ([0], Returned false) /\
        processValue t code value w = ([0], Returned (false, w)).
Proof.
  intros src size adds Hsrc Hsize c Hc Hlen Hh.
  pose proof (ctor_layout src [] size Hsrc Hsize) as Hctor.
  cbn [length app] in Hctor. change (Z.of_nat 0) with 0 in Hctor.
  fold c in Hctor.
  set (k := (Z.to_nat c - length adds - 1)%nat).
  replace (Z.to_nat (c + 1) - 0)%nat with (S (S k + length adds)) in Hctor
    by lia.
  rewrite replicate_S_end in Hctor.
  eexists. eexists. split; [apply Hctor; width|].
  split.
  { apply (add_sequence_fills_from adds (S k) [] [empty_slot] c);
      [done|done|simpl; lia|lia]. }
  intros code value w.
  assert (Hw : 0 < UINT_MOD) by width.
  split.
  - apply (validateAddress_stops _ code 0); [lia|intros; lia|].
    by exists empty_slot.
  - apply (processValue_stops _ code value w 0); [lia|intros; lia|].
    by exists empty_slot.
Qed.

(** X12.  Once a table built empty has been filled, every stored code
    is found, and of two entries with the same code the one added
    later is the one that answers: the entries lie in the reverse of
    the order of the calls, so a look-up for [code] passes the
    entries added after the last [addHandler(code, h)] and calls
    [h]. *)
Theorem X12_last_added_answers_when_full :
  forall src size before code h after value w,
    live_prefix src [] ->
    0 <= size < UINT_MOD ->
    let adds := before ++ (code, Some h) :: after in
    let c := capacity_for src size 0 in
    c <= INT_MAX ->
    Z.of_nat (length adds) = c ->
    Forall (fun p => p.2 <> None) adds ->
    Forall (fun p => p.1 <> code) after ->
    exists t0 t,
      FunctionMapper_ctor src size = Returned t0 /\
      add_sequence t0 adds = Returned (replicate (length adds) true, t) /\
      validateAddress t code
      = (seqZ 0 (Z.of_nat (length after) + 1), Returned true) /\
      processValue t code value w
      = (seqZ 0 (Z.of_nat (length after) + 1),
         Returned (h (to_uchar code) value w)).
Proof.
  intros src size before code h after value w Hsrc Hsize adds c Hc Hlen Hh Hafter.
  pose proof (ctor_layout src [] size Hsrc Hsize) as Hctor.
  cbn [length app] in Hctor. change (Z.of_nat 0) with 0 in Hctor.
  fold c in Hctor.
  replace (Z.to_nat (c + 1) - 0)%nat with (S (0 + length adds)) in Hctor by lia.
  rewrite replicate_S_end in Hctor.
  eexists. eexists. split; [apply Hctor; width|].
  split.
  { apply (add_sequence_fills_from adds 0 [] [empty_slot] c);
      [done|done|simpl; lia|lia]. }
  set (mk := fun p : Z * option Handler => mkFunctionMap p.1 p.2).
  set (l := reverse (mk <$> after)).
  assert (Hl : length l = length after)
    by (subst l; by rewrite length_reverse, length_fmap).
  assert (Hlay : replicate 0 empty_slot ++ reverse (mk <$> adds)
                 ++ [] ++ [empty_slot]
                 = l ++ mkFunctionMap code (Some h)
                     :: reverse (mk <$> before) ++ [empty_slot]).
  { subst adds l. simpl.
    rewrite fmap_app, fmap_cons, reverse_app, reverse_cons, <- !app_assoc.
    done. }
  rewrite Hlay.
  assert (Hafter_len : Z.of_nat (length after) < UINT_MOD).
  { subst adds. rewrite length_app in Hlen. simpl in Hlen. width. }
  assert (Hskip : forall j, 0 <= j < Z.of_nat (length after) ->
    skipped_at (l ++ mkFunctionMap code (Some h)
                  :: reverse (mk <$> before) ++ [empty_slot]) code j).
  { intros j Hj. apply Forall_skipped_at; [|lia].
    subst l. apply Forall_reverse, Forall_fmap.
    apply Forall_app in Hh as [_ Hh]. apply Forall_cons_1 in Hh as [_ Hh].
    rewrite Forall_lookup in Hh, Hafter. apply Forall_lookup.
    intros i p Hp. simpl. split; [by eapply Hh|by eapply Hafter]. }
  assert (Hhit : hit_at (l ++ mkFunctionMap code (Some h)
                  :: reverse (mk <$> before) ++ [empty_slot])
                  code (Z.of_nat (length after)) h).
  { exists (mkFunctionMap code (Some h)). rewrite <- Hl.
    by rewrite slot_read_middle. }
  split.
  - by apply (validateAddress_hits _ code _ h); [lia|..].
  - by apply processValue_hits; [lia|..].
Qed.

End Mapper.

(** ** Concrete instances *)

(** A world that records the calls made: which handler ran, and the
    code and the value it was given. *)
Definition call_log : Type := list (Z * Z * Z).

Definition hA : @Handler call_log :=
  fun code value log => (Z.even value, log ++ [(1, code, value)]).

Definition hB : @Handler call_log :=
  fun code value log => (Z.odd value, log ++ [(2, code, value)]).

Definition hC : @Handler call_log :=
  fun code value log => (99 <? value, log ++ [(3, code, value)]).

(** [{ {1, hA}, {2, hB}, {0, 0} }] *)
Definition demo_list : list (@FunctionMap call_log) :=
  [mkFunctionMap 1 (Some hA); mkFunctionMap 2 (Some hB); mkFunctionMap 0 None].

(** The table [FunctionMapper(demo_list)] builds. *)
Definition demo_table : @FunctionMapper call_log :=
  mkFunctionMapper 2 demo_list.

(** Indeterminate contents for the slots of a fresh allocation. *)
Definition junk : @FunctionMap call_log := mkFunctionMap 4242 (Some hC).

(** The embedding runs.  [FunctionMapper(demo_list, 5)], then
    [addHandler(9, hC)], then three look-ups. *)
Example run_ctor_5 :
  FunctionMapper_ctor 32 junk (Some demo_list) 5
  = Returned (mkFunctionMapper 5
      [mkFunctionMap 1 (Some hA); mkFunctionMap 2 (Some hB);
       mkFunctionMap 0 None; mkFunctionMap 0 None; mkFunctionMap 0 None;
       mkFunctionMap 0 None]).
Proof. vm_compute. reflexivity. Qed.

Example run_add_then_look_up :
  (t0 ← FunctionMapper_ctor 32 junk (Some demo_list) 5;
   '(b, t1) ← addHandler 32 t0 9 (Some hC);
   mret (b, functionCode <$> functionMapArray t1,
         validateAddress 32 t1 9, validateAddress 32 t1 2,
         processValue 32 t1 1 4 []))
  = Returned (true, [1; 2; 0; 0; 9; 0],
              ([0; 1; 2], Returned false), ([0; 1], Returned true),
              ([0], Returned (true, [(1, 1, 4)]))).
Proof. vm_compute. reflexivity. Qed.

(** No list and no size: the default capacity. *)
Example run_ctor_default :
  (t ← FunctionMapper_ctor 16 junk None 0;
   mret (arraySize t, length (functionMapArray t)))
  = Returned (10, 11%nat).
Proof. vm_compute. reflexivity. Qed.

(** A list without a sentinel entry: the measuring loop runs off its end. *)
Example run_ctor_unterminated :
  FunctionMapper_ctor 32 junk (Some [mkFunctionMap 1 (Some hA)]) 0 = OutOfBounds.
Proof. vm_compute. reflexivity. Qed.

(** Facts about arrays and bounds that are written out in full. *)
Ltac closed_fact :=
  repeat first
    [ progress (unfold skipped_at, hit_at, empty_at, live_at)
    | eexists
    | split
    | reflexivity
    | done
    | lia ].

Ltac closed_cases j :=
  match goal with
  | H : 0 <= j < 1 |- _ => assert (j = 0) as -> by lia
  | H : 0 <= j < 2 |- _ => assert (j = 0 \/ j = 1) as [-> | ->] by lia
  | H : 0 <= j < 3 |- _ =>
      assert (j = 0 \/ j = 1 \/ j = 2) as [-> | [-> | ->]] by lia
  end.

Lemma C1_witness :
  processValue 32 demo_table 2 7 [] = ([0; 1], Returned (true, [(2, 2, 7)])) /\
  processValue 32 demo_table 3 7 [] = ([0; 1; 2], Returned (false, [])) /\
  (processValue 32 demo_table 1 8 []).2 = Returned (true, [(1, 1, 8)]) /\
  (validateAddress 32 demo_table 3).2 = Returned false.
Proof.
  destruct (C1_processValue_dispatch (World := call_log) 32 ltac:(lia))
    as [Hgen Hex].
  split_and!.
  - refine (proj1 (proj1 (Hgen demo_table 2 7 [] 1 _ _) hB _)).
    + vm_compute. split; congruence.
    + intros j Hj. closed_cases j. closed_fact.
    + closed_fact.
  - refine (proj2 (Hgen demo_table 3 7 [] 2 _ _) _).
    + vm_compute. split; congruence.
    + intros j Hj. closed_cases j; closed_fact.
    + closed_fact.
  - apply (Hex hA hB 0 2 [] 8 []).
  - apply (Hex hA hB 0 2 [] 8 []).
Defined.

(** Closed comparisons of machine integers. *)
Ltac closed_range :=
  vm_compute; repeat split; first [reflexivity | congruence].

Lemma C2_witness :
  (exists t, FunctionMapper_ctor 32 junk (Some demo_list) 1 = Returned t /\
             arraySize t = 2) /\
  (exists t, FunctionMapper_ctor 32 junk (Some demo_list) 7 = Returned t /\
             arraySize t = 7) /\
  (exists t, FunctionMapper_ctor 32 junk None 0 = Returned t /\
             arraySize t = 10).
Proof.
  split_and!.
  - destruct (C2_effective_capacity 32 junk ltac:(lia) 1 ltac:(closed_range))
      as [Hlist _].
    destruct (Hlist [mkFunctionMap 1 (Some hA); mkFunctionMap 2 (Some hB)]
                (mkFunctionMap 0 None) [])
      as (t & Ht & _ & Hlt & _).
    + by repeat constructor.
    + reflexivity.
    + closed_range.
    + exists t. split; [exact Ht|]. apply Hlt. simpl. lia.
  - destruct (C2_effective_capacity 32 junk ltac:(lia) 7 ltac:(closed_range))
      as [Hlist _].
    destruct (Hlist [mkFunctionMap 1 (Some hA); mkFunctionMap 2 (Some hB)]
                (mkFunctionMap 0 None) [])
      as (t & Ht & _ & _ & Hge).
    + by repeat constructor.
    + reflexivity.
    + closed_range.
    + exists t. split; [exact Ht|]. apply Hge. simpl. lia.
  - destruct (C2_effective_capacity 32 junk ltac:(lia) 0 ltac:(closed_range))
      as [_ (t & Ht & _ & Hzero)].
    exists t. split; [exact Ht|]. by apply Hzero.
Defined.

Lemma C3_witness :
  addHandler 16 demo_table 9 (Some hC) = Returned (false, demo_table) /\
  exists t,
    FunctionMapper_ctor 16 junk (Some demo_list) 0 = Returned t /\
    functionMapArray t = demo_list /\
    addHandler 16 t 9 (Some hC) = Returned (false, t).
Proof.
  destruct (C3_full_table_rejects 16 junk ltac:(lia)) as [Hfull Hlist].
  split.
  - apply Hfull. intros j Hj. simpl in Hj. closed_cases j; closed_fact.
  - destruct (Hlist [mkFunctionMap 1 (Some hA); mkFunctionMap 2 (Some hB)]
                (mkFunctionMap 0 None) [])
      as (t & Ht & _ & Harr & Hadd & _).
    + by repeat constructor.
    + reflexivity.
    + closed_range.
    + exists t. split; [exact Ht|]. split; [exact Harr|]. apply Hadd.
Defined.

(** Capacity 3: slots 0 and 2 empty, slot 1 live, then the terminator. *)
Definition gap_table : @FunctionMapper call_log :=
  mkFunctionMapper 3
    [mkFunctionMap 0 None; mkFunctionMap 1 (Some hA); mkFunctionMap 0 None;
     mkFunctionMap 0 None].


Lemma C5_witness :
  (validateAddress 32 gap_table 1 = ([0], Returned false) /\
   processValue 32 gap_table 1 200 [] = ([0], Returned (false, []))) /\
  exists t0 t1,
    FunctionMapper_ctor 32 junk (Some demo_list) 5 = Returned t0 /\
    addHandler 32 t0 9 (Some hC) = Returned (true, t1) /\
    slot_read (functionMapArray t1) 4 = Some (mkFunctionMap 9 (Some hC)) /\
    validateAddress 32 t1 9 = ([0; 1; 2], Returned false) /\
    processValue 32 t1 9 200 [] = ([0; 1; 2], Returned (false, [])).
Proof.
  destruct (C5_scan_stops_at_first_empty 32 junk ltac:(lia)) as [Hgen Hex].
  split.
  - apply (Hgen gap_table 1 200 [] 0).
    + closed_range.
    + intros j Hj. lia.
    + closed_fact.
  - destruct (Hex (mkFunctionMap 1 (Some hA)) (mkFunctionMap 2 (Some hB))
                (mkFunctionMap 0 None) [] 9 (Some hC) 200 [])
      as (t0 & t1 & Hctor & Hadd & _ & Hslot & Hval & Hproc); [done..|].
    exists t0, t1. by split_and!.
Defined.

Lemma C6_witness :
  exists t0 t,
    FunctionMapper_ctor 16 junk None 3 = Returned t0 /\
    add_sequence 16 t0 [(5, Some hA); (6, Some hB); (7, Some hC)]
    = Returned ([true; true; true], t) /\
    functionMapArray t
    = [mkFunctionMap 7 (Some hC); mkFunctionMap 6 (Some hB);
       mkFunctionMap 5 (Some hA); mkFunctionMap 0 None] /\
    validateAddress 16 t 9 = ([0; 1; 2; 3], Returned false) /\
    processValue 16 t 9 200 [] = ([0; 1; 2; 3], Returned (false, [])).
Proof.
  destruct (C6_scan_of_full_table_terminates 16 junk ltac:(lia) None 3
              [(5, Some hA); (6, Some hB); (7, Some hC)] 9 200 [])
    as (t0 & t & Hctor & _ & Hadds & _ & _ & _ & Hval & Hproc & _).
  - reflexivity.
  - closed_range.
  - closed_range.
  - reflexivity.
  - by repeat constructor.
  - repeat constructor; simpl; lia.
  - exists t0, t. split; [exact Hctor|]. split; [exact Hadds|].
    split; [|split; [exact Hval|exact Hproc]].
    assert (Ht0 : Returned t0
                  = FunctionMapper_ctor 16 junk None 3) by by rewrite Hctor.
    vm_compute in Ht0. injection Ht0 as ->.
    vm_compute in Hadds. by injection Hadds as <-.
Defined.

(** Capacity 3 with code 2 stored twice, by [hB] and then by [hC]. *)
Definition twin_table : @FunctionMapper call_log :=
  mkFunctionMapper 3
    [mkFunctionMap 1 (Some hA); mkFunctionMap 2 (Some hB);
     mkFunctionMap 2 (Some hC); mkFunctionMap 0 None].

Lemma C7_witness :
  validateAddress 32 twin_table 2 = ([0; 1], Returned true) /\
  processValue 32 twin_table 2 7 [] = ([0; 1], Returned (true, [(2, 2, 7)])).
Proof.
  destruct (C7_lowest_index_wins 32 twin_table 2 7 [] 1 2 hB hC)
    as (Hval & Hproc & _).
  - lia.
  - closed_range.
  - intros j Hj. closed_cases j; closed_fact.
  - closed_fact.
  - closed_fact.
  - intros j h Hj (e & He & _ & Hc). closed_cases j.
    vm_compute in He. injection He as <-. simpl in Hc. lia.
  - split; [exact Hval|exact Hproc].
Defined.

Lemma X13_witness :
  exists t0,
    FunctionMapper_ctor 32 junk (Some demo_list) 5 = Returned t0 /\
    slot_read (functionMapArray t0) 5 = Some (mkFunctionMap 0 None) /\
    exists t w',
      run_operations 32 (t0, [])
        [OpAdd 9 (Some hC); OpProcess 1 4; OpValidate 9; OpAdd 3 None;
         OpAdd 4 (Some hA); OpAdd 5 (Some hB); OpAdd 6 (Some hB);
         OpProcess 2 3]
      = Returned (t, w') /\
      slot_read (functionMapArray t) 5 = Some (mkFunctionMap 0 None).
Proof.
  destruct (X13_terminator_is_permanent 32 junk ltac:(lia) (Some demo_list)
              [mkFunctionMap 1 (Some hA); mkFunctionMap 2 (Some hB)] 5)
    as (t0 & Hctor & _ & _ & Hterm & Hops).
  - exists (mkFunctionMap 0 None), []. split_and!; [done..|].
    by repeat constructor.
  - closed_range.
  - closed_range.
  - exists t0. split; [exact Hctor|]. split; [exact Hterm|].
    destruct (Hops [OpAdd 9 (Some hC); OpProcess 1 4; OpValidate 9; OpAdd 3 None;
                    OpAdd 4 (Some hA); OpAdd 5 (Some hB); OpAdd 6 (Some hB);
                    OpProcess 2 3] [])
      as (t & w' & Hrun & _ & _ & Hterm').
    exists t, w'. split; [exact Hrun|exact Hterm'].
Defined.

Lemma C9_witness :
  exists t,
    FunctionMapper_ctor 32 junk (Some [mkFunctionMap 0 None]) 0 = Returned t /\
    arraySize t = 0 /\
    addHandler 32 t 9 (Some hC) = Returned (false, t).
Proof.
  destruct (C9_empty_list_zero_capacity 32 junk ltac:(lia)
              (mkFunctionMap 0 None) [])
    as (t & Hctor & Hcap & _ & Hadd & _).
  - reflexivity.
  - exists t. split; [exact Hctor|]. split; [exact Hcap|]. apply Hadd.
Defined.

(** A table whose only entry has a code too wide for one byte. *)
Definition wide_table : @FunctionMapper call_log :=
  mkFunctionMapper 1 [mkFunctionMap 300 (Some hA); mkFunctionMap 0 None].

Lemma C10_witness :
  processValue 32 wide_table 300 8 [] = ([0], Returned (true, [(1, 44, 8)])).
Proof.
  destruct (C10_code_narrowed_for_handler 32 wide_table 300 8 [] 0 hA)
    as (first & h1 & _ & _ & _ & Hproc & _ & _ & Hsame).
  - closed_range.
  - intros j Hj. lia.
  - closed_fact.
  - lia.
  - destruct Hsame as [-> ->]; [intros j Hj; lia|]. exact Hproc.
Defined.

(** ** Concrete instances of the further properties *)

(** Capacity 5 with the two entries of [demo_list]. *)
Definition five_table : @FunctionMapper call_log :=
  mkFunctionMapper 5
    [mkFunctionMap 1 (Some hA); mkFunctionMap 2 (Some hB);
     mkFunctionMap 0 None; mkFunctionMap 0 None; mkFunctionMap 0 None;
     mkFunctionMap 0 None].

(** [five_table] after [addHandler(9, hC)]. *)
Definition five_table_added : @FunctionMapper call_log :=
  mkFunctionMapper 5
    [mkFunctionMap 1 (Some hA); mkFunctionMap 2 (Some hB);
     mkFunctionMap 0 None; mkFunctionMap 0 None; mkFunctionMap 9 (Some hC);
     mkFunctionMap 0 None].

(** On a 16 bit target: capacity 32769, every slot empty. *)
Definition big_table : @FunctionMapper call_log :=
  mkFunctionMapper 32769 (replicate (Z.to_nat 32770) (mkFunctionMap 0 None)).

Lemma X3_witness :
  FunctionMapper_ctor 32 junk (Some demo_list) 5 = Returned five_table /\
  FunctionMapper_ctor 32 junk None 3
  = Returned (mkFunctionMapper 3 (replicate 4 (mkFunctionMap 0 None))).
Proof.
  destruct (X3_ctor_layout 32 junk ltac:(lia)) as (Hlist & Hnone & _).
  split.
  - apply (Hlist [mkFunctionMap 1 (Some hA); mkFunctionMap 2 (Some hB)]
             (mkFunctionMap 0 None) [] 5).
    + by repeat constructor.
    + reflexivity.
    + closed_range.
    + closed_range.
  - apply (Hnone 3); [lia|closed_range].
Defined.

Lemma X4_witness :
  exists t,
    FunctionMapper_ctor 32 junk (Some demo_list) 5 = Returned t /\
    (validateAddress 32 t 2).2 = Returned true /\
    (validateAddress 32 t 9).2 = Returned false /\
    processValue 32 t 2 7 [] = ([0; 1], Returned (true, [(2, 2, 7)])).
Proof.
  destruct (X4_ctor_then_look_up 32 junk (Some demo_list)
              [mkFunctionMap 1 (Some hA); mkFunctionMap 2 (Some hB)] 5)
    as (t & Hctor & Hval & Hproc).
  - exists (mkFunctionMap 0 None), []. split_and!; [done..|].
    by repeat constructor.
  - closed_range.
  - closed_range.
  - exists t. split; [exact Hctor|].
    split; [exact (Hval 2)|]. split; [exact (Hval 9)|].
    apply (Hproc [mkFunctionMap 1 (Some hA)] (mkFunctionMap 2 (Some hB)) [] hB).
    + reflexivity.
    + reflexivity.
    + intros Hin%list_elem_of_singleton. discriminate Hin.
Defined.

Lemma X5_witness :
  FunctionMapper_ctor 32 junk
    (Some [mkFunctionMap 1 (Some hA); mkFunctionMap 2 (Some hB)]) 4
  = OutOfBounds.
Proof.
  apply (X5_ctor_unterminated_list 32 junk).
  - by repeat constructor.
  - closed_range.
Defined.

Lemma X6_witness :
  exists t,
    FunctionMapper_ctor 16 junk None 65535 = Returned t /\
    arraySize t = 65535 /\
    functionMapArray t = [] /\
    validateAddress 16 t 1 = ([0], OutOfBounds) /\
    addHandler 16 t 1 (Some hA) = OutOfBounds.
Proof.
  destruct (X6_slot_count_wraps 16 junk ltac:(lia) None [])
    as (t & Hctor & Hcap & Harr & Hval & _ & Hadd).
  - reflexivity.
  - closed_range.
  - exists t. split; [exact Hctor|]. split; [exact Hcap|].
    split; [exact Harr|]. split; [exact (Hval 1)|exact (Hadd 1 (Some hA))].
Defined.

Lemma X7_witness :
  slot_read (functionMapArray five_table_added) 1
  = slot_read (functionMapArray five_table) 1 /\
  exists j,
    0 <= j < 5 /\
    slot_read (functionMapArray five_table_added) j
    = Some (mkFunctionMap 9 (Some hC)).
Proof.
  destruct (X7_addHandler_keeps_live_slots 32 five_table 9 (Some hC)
              true five_table_added)
    as (_ & _ & Hlive & _ & Hnew).
  - closed_range.
  - vm_compute. reflexivity.
  - split.
    + apply Hlive. closed_fact.
    + destruct (Hnew eq_refl) as (j & Hj & _ & Hslot & _).
      exists j. split; [exact Hj|exact Hslot].
Defined.



Lemma X10_witness :
  validateAddress 32 five_table_added 2 = validateAddress 32 five_table 2 /\
  processValue 32 five_table_added 2 7 [] = processValue 32 five_table 2 7 [].
Proof.
  apply (X10_found_code_stays_found 32 five_table 2 9 (Some hC)
           true five_table_added 7 []).
  - closed_range.
  - vm_compute. reflexivity.
  - vm_compute. reflexivity.
Defined.

Lemma X11_witness : addHandler 16 big_table 9 (Some hC) = OutOfBounds.
Proof.
  apply (X11_slot_index_beyond_int 16 ltac:(lia) big_table 9 (Some hC) 32768).
  - closed_range.
  - closed_range.
  - closed_range.
  - exists (mkFunctionMap 0 None). split; vm_compute; reflexivity.
  - intros k Hk. simpl in Hk. lia.
Defined.

Lemma X2_witness :
  exists t0 t,
    FunctionMapper_ctor 16 junk None 3 = Returned t0 /\
    add_sequence 16 t0 [(5, Some hA); (6, Some hB)]
    = Returned ([true; true], t) /\
    validateAddress 16 t 5 = ([0], Returned false) /\
    processValue 16 t 6 7 [] = ([0], Returned (false, [])).
Proof.
  destruct (X2_nothing_found_until_full 16 junk ltac:(lia) None 3
              [(5, Some hA); (6, Some hB)])
    as (t0 & t & Hctor & Hadds & Hlook).
  - reflexivity.
  - closed_range.
  - closed_range.
  - closed_range.
  - by repeat constructor.
  - exists t0, t. split; [exact Hctor|]. split; [exact Hadds|].
    split; [exact (proj1 (Hlook 5 0 []))|exact (proj2 (Hlook 6 7 []))].
Defined.

Lemma X12_witness :
  exists t0 t,
    FunctionMapper_ctor 16 junk None 3 = Returned t0 /\
    add_sequence 16 t0 [(7, Some hA); (7, Some hB); (6, Some hC)]
    = Returned ([true; true; true], t) /\
    processValue 16 t 7 8 [] = ([0; 1], Returned (false, [(2, 7, 8)])).
Proof.
  destruct (X12_last_added_answers_when_full 16 junk ltac:(lia) None 3
              [(7, Some hA)] 7 hB [(6, Some hC)] 8 [])
    as (t0 & t & Hctor & Hadds & _ & Hproc).
  - reflexivity.
  - closed_range.
  - closed_range.
  - reflexivity.
  - by repeat constructor.
  - repeat constructor. simpl. lia.
  - exists t0, t. split; [exact Hctor|]. split; [exact Hadds|exact Hproc].
Defined.

(** ** Where the code departs from the specification *)

(** C1 as it was stated, at a code wider than one byte.  The only
    entry of [wide_table] is [{ 300, hA }].  [processValue(300, 8)]
    matches it and calls [hA(44, 8)]: what it returns is not what
    [hA(300, 8)] returns. *)
Lemma C1_counterexample :
  hit_at (functionMapArray wide_table) 300 0 hA /\
  processValue 32 wide_table 300 8 [] = ([0], Returned (hA 44 8 [])) /\
  (processValue 32 wide_table 300 8 []).2 <> Returned (hA 300 8 []).
Proof.
  split; [closed_fact|]. split; [vm_compute; reflexivity|].
  vm_compute. intros Hsame. discriminate Hsame.
Qed.

(** C8 (terminator), at the input where the code fails it.
    [FunctionMapper(0, UINT_MAX)]: the slot count [arraySize + 1] of
    line 14 wraps to 0, the loop of line 16 does not run, and the
    constructor returns a table that records capacity [UINT_MAX] and
    has no slot, so no slot [capacity] and no terminator; a look-up
    on it leaves the array at slot 0.  With [unsigned int] of 16 bits
    and of 32 bits. *)
Theorem C8_no_terminator_at_UINT_MAX :
  FunctionMapper_ctor 16 junk None 65535
  = Returned (mkFunctionMapper 65535 []) /\
  slot_read (functionMapArray (mkFunctionMapper 65535 [])) 65535
  = @None (@FunctionMap call_log) /\
  validateAddress 16 (@mkFunctionMapper call_log 65535 []) 1
  = ([0], OutOfBounds) /\
  FunctionMapper_ctor 32 junk None 4294967295
  = Returned (mkFunctionMapper 4294967295 []) /\
  slot_read (functionMapArray (mkFunctionMapper 4294967295 [])) 4294967295
  = @None (@FunctionMap call_log) /\
  validateAddress 32 (@mkFunctionMapper call_log 4294967295 []) 1
  = ([0], OutOfBounds).
Proof.
  split; [vm_compute; reflexivity|].
  split; [unfold slot_read; cbn [functionMapArray]; by case_decide|].
  split; [vm_compute; reflexivity|].
  split; [vm_compute; reflexivity|].
  split; [unfold slot_read; cbn [functionMapArray]; by case_decide|].
  vm_compute. reflexivity.
Qed.
